(** * AutoRAG utilities: ragged transforms, batching, combinations

    A shallow embedding of [autorag/utils/util.py] and the properties of
    its ragged-list, batching, combination and lookup helpers.

    Python integers are [Z]; Python lists are [list]; a call that may raise
    returns a [result]; an insertion-ordered [dict] is an association list. *)

From Stdlib Require Import ZArith Lia Bool Ascii String Arith PeanoNat.
From Stdlib Require Import DecimalString.
From Stdlib Require Import List Permutation Sorted.
Import ListNotations.
Local Open Scope Z_scope.
#[local] Set Warnings "-register-all".

(* ================================================================= *)
(** * Part I: the embedding *)
(* ================================================================= *)

(** ** Exceptions and results *)

Module Py.

(** The exception classes that the modelled code can raise, each with its
    message; [TaskError] stands for whatever a user-supplied coroutine
    raises. *)
Inductive exn : Type :=
| ValueError (msg : string)
| KeyError (key : string)
| IndexError (msg : string)
| AttributeError (msg : string)
| TaskError (code : Z).

Inductive result (T : Type) : Type :=
| Ok (v : T)
| Raise (e : exn).

Arguments Ok {T} v.
Arguments Raise {T} e.

Definition bind {T U : Type} (r : result T) (k : T -> result U) : result U :=
  match r with
  | Ok v => k v
  | Raise e => Raise e
  end.

(** [len(l)] *)
Definition len {A : Type} (l : list A) : Z := Z.of_nat (length l).

(** ** [range(start, stop, step)]

    CPython computes the number of items first and then yields
    [start + i * step]; a zero step raises [ValueError]. *)
Definition range_length (start stop step : Z) : Z :=
  if 0 <? step then
    if start <? stop then (stop - start - 1) / step + 1 else 0
  else
    if stop <? start then (start - stop - 1) / (- step) + 1 else 0.

Definition range (start stop step : Z) : result (list Z) :=
  if step =? 0 then Raise (ValueError "range() arg 3 must not be zero")
  else Ok (map (fun i => start + Z.of_nat i * step)
               (seq 0 (Z.to_nat (range_length start stop step)))).

(** ** Slicing [l[a:b]]

    A negative bound counts from the end; both bounds are then clamped to
    [0 .. len l]; an empty or inverted interval gives the empty list. *)
Definition adjust_index (n i : Z) : Z :=
  if i <? 0 then Z.max 0 (i + n) else Z.min i n.

Definition slice {A : Type} (l : list A) (a b : Z) : list A :=
  let lo := adjust_index (len l) a in
  let hi := adjust_index (len l) b in
  firstn (Z.to_nat (hi - lo)) (skipn (Z.to_nat lo) l).

End Py.

Import Py.

Declare Scope py_scope.
Notation "x <- c ;; k" := (bind c (fun x => k))
  (at level 61, c at next level, right associativity) : py_scope.
Local Open Scope py_scope.

(** ** [make_batch] *)

(** [[elems[i:i + batch_size] for i in range(0, len(elems), batch_size)]] *)
Definition make_batch {A : Type} (elems : list A) (batch_size : Z)
  : result (list (list A)) :=
  idx <- range 0 (len elems) batch_size ;;
  Ok (map (fun i => slice elems i (i + batch_size)) idx).

(** ** [reconstruct_list] *)

(** The loop of [reconstruct_list]: [result] and [start] are the two
    local variables it updates for each declared length. *)
Fixpoint reconstruct_loop {A : Type} (flat_list : list A) (lengths : list Z)
  (result : list (list A)) (start : Z) : list (list A) :=
  match lengths with
  | [] => result
  | length :: rest =>
      reconstruct_loop flat_list rest
        (result ++ [slice flat_list start (start + length)])
        (start + length)
  end.

(** No statement of [reconstruct_list] raises: slicing never does. *)
Definition reconstruct_list {A : Type} (flat_list : list A) (lengths : list Z)
  : result (list (list A)) :=
  Ok (reconstruct_loop flat_list lengths [] 0).

(** [list(itertools.chain.from_iterable(rows))] *)
Definition flatten {A : Type} (rows : list (list A)) : list A := concat rows.

(** [list(map(len, rows))] *)
Definition row_lengths {A : Type} (rows : list (list A)) : list Z :=
  map len rows.

(** [sum(lengths)] *)
Definition sum (lengths : list Z) : Z := fold_right Z.add 0 lengths.

(** Cutting a list into pieces of [k] elements, by recursion on the number
    of pieces still to cut: the reference that [make_batch] is compared
    with. *)
Fixpoint chunk {A : Type} (pieces k : nat) (l : list A) : list (list A) :=
  match pieces with
  | O => []
  | S p => firstn k l :: chunk p k (skipn k l)
  end.

(** [ceil(n / k)] on naturals. *)
Definition ceil_div (n k : nat) : nat := ((n + k - 1) / k)%nat.

(** ** [process_batch] *)

Section Tasks.

Variable R : Type.

(** A deferred computation, by what the executor observes of it once
    started: when it completes, counted from its start, and how. *)
Record Task : Type := mkTask {
  completes_at : nat;
  outcome : result R
}.

(** The failure that is raised first among the tasks of a batch started
    together (the leftmost of those raised at the same moment), with its
    time. *)
Fixpoint earliest_failure (batch : list Task) : option (nat * exn) :=
  match batch with
  | [] => None
  | t :: rest =>
      match outcome t, earliest_failure rest with
      | Ok _, later => later
      | Raise e, None => Some (completes_at t, e)
      | Raise e, Some (d, e') =>
          if (completes_at t <=? d)%nat then Some (completes_at t, e)
          else Some (d, e')
      end
  end.

(** The results of a batch in the order of its tasks. *)
Fixpoint collect (batch : list Task) : result (list R) :=
  match batch with
  | [] => Ok []
  | t :: rest =>
      r <- outcome t ;;
      rs <- collect rest ;;
      Ok (r :: rs)
  end.

(** [await asyncio.gather] on the unpacked batch: every task of the batch is started;
    the first exception raised is propagated at once; when none is
    raised the results come in the order of the arguments. *)
Definition gather (batch : list Task) : result (list R) :=
  match earliest_failure batch with
  | Some (_, e) => Raise e
  | None => collect batch
  end.

(** The [for] loop of [process_batch] over the indices of [range]:
    [results] is its local variable, [started] records the tasks handed
    to [gather] so far.  An exception leaves the loop and the function. *)
Fixpoint process_loop (tasks : list Task) (batch_size : Z) (idx : list Z)
  (results : list R) (started : list Task) : list Task * result (list R) :=
  match idx with
  | [] => (started, Ok results)
  | i :: rest =>
      let batch := slice tasks i (i + batch_size) in
      match gather batch with
      | Raise e => (started ++ batch, Raise e)
      | Ok batch_results =>
          process_loop tasks batch_size rest
            (results ++ batch_results) (started ++ batch)
      end
  end.

(** [process_batch(tasks, batch_size)]: the tasks that were started, and
    the returned list or the propagated exception. *)
Definition process_batch (tasks : list Task) (batch_size : Z)
  : list Task * result (list R) :=
  match range 0 (len tasks) batch_size with
  | Raise e => ([], Raise e)
  | Ok idx => process_loop tasks batch_size idx [] []
  end.

(** The same loop over batches already cut: the reference that
    [process_loop] is compared with. *)
Fixpoint run_batches (batches : list (list Task))
  (results : list R) (started : list Task) : list Task * result (list R) :=
  match batches with
  | [] => (started, Ok results)
  | batch :: rest =>
      match gather batch with
      | Raise e => (started ++ batch, Raise e)
      | Ok batch_results =>
          run_batches rest (results ++ batch_results) (started ++ batch)
      end
  end.

Definition succeeds (t : Task) : Prop := exists r, outcome t = Ok r.
Definition fails (t : Task) : Prop := exists e, outcome t = Raise e.

End Tasks.

Arguments mkTask {R} _ _.
Arguments completes_at {R} _.
Arguments outcome {R} _.
Arguments earliest_failure {R} _.
Arguments collect {R} _.
Arguments gather {R} _.
Arguments process_loop {R} _ _ _ _ _.
Arguments process_batch {R} _ _.
Arguments run_batches {R} _ _ _.
Arguments succeeds {R} _.
Arguments fails {R} _.

(** ** [flatten_apply] *)

(** The message of the [ValueError] that pandas raises when a list of
    [values] cells is assigned as a column of a frame of [index] rows. *)
Definition length_mismatch (values index : nat) : exn :=
  ValueError ("Length of values (" ++ NilEmpty.string_of_uint (Nat.to_uint values)
              ++ ") does not match length of index ("
              ++ NilEmpty.string_of_uint (Nat.to_uint index) ++ ")").

Section FlattenApply.

(** [A]: the cells of the rows given; [B]: the values that the transform
    returns; [C]: the cells read back from the column that holds them. *)
Variables A B C : Type.

(** The missing-value marker ([NaN]) that [DataFrame.explode] puts in
    the place of an empty list. *)
Variable nan : A.

(** [cast values v]: the cell read back for the value [v] of a column
    that was assigned the list [values].  pandas infers one dtype for
    the column from the whole list and stores every value under it, so
    that a value may come back as another one (an integer as a float,
    [None] as [NaN]); the column has one cell for each value. *)
Variable cast : list B -> B -> C.

Definition as_column (values : list B) : list C :=
  map (cast values) values.

(** One row of [df.explode('col1')]: every element of the cell under the
    index label of its row; an empty cell gives one row holding [nan].
    The column [col1] holds lists and then stays a column of Python
    objects: its cells are read back as they were given. *)
Definition explode_row (label : nat) (row : list A) : list (nat * A) :=
  match row with
  | [] => [(label, nan)]
  | _ :: _ => map (pair label) row
  end.

(** [pd.DataFrame({'col1': nested_list}).explode('col1')], as the
    sequence of (index label, cell); the labels of the frame are
    [0 .. len(nested_list) - 1]. *)
Definition explode (nested_list : list (list A)) : list (nat * A) :=
  flat_map (fun ir => explode_row (fst ir) (snd ir))
           (combine (seq 0 (length nested_list)) nested_list).

(** One step of grouping: the value joins the group of its label, at its
    end, or opens a new last group. *)
Fixpoint group_add (label : nat) (v : C) (groups : list (nat * list C))
  : list (nat * list C) :=
  match groups with
  | [] => [(label, [v])]
  | (l, vs) :: rest =>
      if (l =? label)%nat then (l, vs ++ [v]) :: rest
      else (l, vs) :: group_add label v rest
  end.

(** [groupby(level=0, sort=False)[...].apply(list)]: the groups in the
    order in which their labels are first seen, each with its values in
    the order of the frame. *)
Definition groupby_level0 (frame : list (nat * C)) : list (nat * list C) :=
  fold_left (fun groups lv => group_add (fst lv) (snd lv) groups) frame [].

(** [flatten_apply(func, nested_list)].  The assignment of the column
    [df['result']] has three outcomes: a frame without rows that is
    given a non-empty list takes one row for each value of it, under the
    labels [0 .. len(values) - 1]; a list as long as the frame becomes
    the column; a list of another length raises [ValueError]. *)
Definition flatten_apply (func : list A -> result (list B))
  (nested_list : list (list A)) : result (list (list C)) :=
  let df := explode nested_list in
  values <- func (map snd df) ;;
  if (length df =? 0)%nat && negb (length values =? 0)%nat then
    Ok (map snd (groupby_level0
                   (combine (seq 0 (length values)) (as_column values))))
  else if (length values =? length df)%nat then
    Ok (map snd (groupby_level0 (combine (map fst df) (as_column values))))
  else
    Raise (length_mismatch (length values) (length df)).

End FlattenApply.

Arguments as_column {B C} cast values.
Arguments explode_row {A} nan label row.
Arguments explode {A} nan nested_list.
Arguments group_add {C} label v groups.
Arguments groupby_level0 {C} frame.
Arguments flatten_apply {A B C} nan cast func nested_list.

(** A row as [explode] lays it out: an empty row holds the one marker. *)
Definition placeholder_row {A : Type} (nan : A) (row : list A) : list A :=
  match row with
  | [] => [nan]
  | _ :: _ => row
  end.

(** ** Python values *)

(** The values that parameters, identifiers and table cells take here.
    Equality of these is structural, as [==] is in Python on [None],
    integers, strings, tuples and lists (booleans and floats, whose [==]
    crosses types, are left out). *)
Inductive pyval : Type :=
| VNone
| VInt (z : Z)
| VStr (s : string)
| VTuple (items : list pyval)
| VList (items : list pyval).

(** The induction principle of [pyval] that reaches the items of a tuple
    and of a list. *)
Section PyvalInduction.

Variable P : pyval -> Prop.
Hypothesis HNone : P VNone.
Hypothesis HInt : forall z, P (VInt z).
Hypothesis HStr : forall s, P (VStr s).
Hypothesis HTuple : forall items, Forall P items -> P (VTuple items).
Hypothesis HList : forall items, Forall P items -> P (VList items).

Fixpoint pyval_nested_ind (v : pyval) : P v :=
  let all := fix all (l : list pyval) : Forall P l :=
    match l with
    | [] => Forall_nil P
    | x :: xs => Forall_cons x (pyval_nested_ind x) (all xs)
    end in
  match v with
  | VNone => HNone
  | VInt z => HInt z
  | VStr s => HStr s
  | VTuple items => HTuple items (all items)
  | VList items => HList items (all items)
  end.

End PyvalInduction.

Section All2.
Context {X : Type} (f : X -> X -> bool).

Fixpoint all2 (xs ys : list X) : bool :=
  match xs, ys with
  | [], [] => true
  | x :: xs', y :: ys' => f x y && all2 xs' ys'
  | _, _ => false
  end.
End All2.

(** [a == b] *)
Fixpoint pyval_eqb (a b : pyval) : bool :=
  match a, b with
  | VNone, VNone => true
  | VInt x, VInt y => x =? y
  | VStr x, VStr y => String.eqb x y
  | VTuple xs, VTuple ys => all2 pyval_eqb xs ys
  | VList xs, VList ys => all2 pyval_eqb xs ys
  | _, _ => false
  end.

(** [isinstance(v, str)] *)
Definition is_str (v : pyval) : bool :=
  match v with VStr _ => true | _ => false end.

(** Whether [hash(obj)] returns, rather than raising [TypeError]: a list
    is not hashable, a tuple is when its items are. *)
Fixpoint is_hashable (obj : pyval) : bool :=
  match obj with
  | VList _ => false
  | VTuple items => forallb is_hashable items
  | _ => true
  end.

(** ** [make_combinations] *)

(** A [dict] with string keys: its items in insertion order. *)
Definition dict (V : Type) : Type := list (string * V).

(** [d[k] = v]: an existing key keeps its place and takes the new value,
    a new key goes last. *)
Fixpoint dict_set {V : Type} (d : dict V) (k : string) (v : V) : dict V :=
  match d with
  | [] => [(k, v)]
  | (k', v') :: rest =>
      if String.eqb k' k then (k', v) :: rest
      else (k', v') :: dict_set rest k v
  end.

(** [dict(items)] *)
Definition dict_of {V : Type} (items : list (string * V)) : dict V :=
  fold_left (fun d kv => dict_set d (fst kv) (snd kv)) items [].

(** [itertools.product] of the unpacked lists: the tuples in lexicographic order, the
    last list varying fastest. *)
Fixpoint product {V : Type} (lists : list (list V)) : list (list V) :=
  match lists with
  | [] => [[]]
  | l :: rest => flat_map (fun x => map (cons x) (product rest)) l
  end.

Section MakeCombinations.

(** [list(set(x))] for hashable elements: the order in which the set is
    iterated is not fixed by the language. *)
Variable list_of_set : list pyval -> list pyval.

(** [x[1] if isinstance(x[1], list) else [x[1]]] *)
Definition as_list (v : pyval) : list pyval :=
  match v with
  | VList items => items
  | _ => [v]
  end.

Definition delete_duplicate (x : list pyval) : list pyval :=
  if existsb (fun elem => negb (is_hashable elem)) x then x
  else list_of_set x.

Definition make_combinations (target_dict : dict pyval) : list (dict pyval) :=
  let dict_with_lists :=
    dict_of (map (fun x => (fst x, as_list (snd x))) target_dict) in
  let dict_with_lists :=
    dict_of (map (fun x => (fst x, delete_duplicate (snd x))) dict_with_lists) in
  let combination := product (map snd dict_with_lists) in
  map (fun combo => dict_of (combine (map fst dict_with_lists) combo))
      combination.

End MakeCombinations.

(** The number of assignments: the product over the keys of the number of
    distinct candidates. *)
Definition count_product (counts : list nat) : nat := fold_right Nat.mul 1%nat counts.

Definition hashable_candidates (target_dict : dict pyval) : Prop :=
  forall k v, In (k, v) target_dict -> forallb is_hashable (as_list v) = true.

(** ** The corpus table and [fetch_one_content] *)

(** A [pd.DataFrame] by what [fetch_one_content] reads of it: the names of
    its columns and its rows in order, a row giving the cell under each
    column name (what it gives under other names is never read). *)
Record DataFrame : Type := mkDataFrame {
  columns : list string;
  rows : list (string -> pyval)
}.

(** [df[name]]: the cells of a column, or [KeyError]. *)
Definition getitem (df : DataFrame) (name : string) : result (list pyval) :=
  if existsb (String.eqb name) (columns df) then
    Ok (map (fun row => row name) (rows df))
  else Raise (KeyError name).

(** [series == value], cell by cell. *)
Definition series_eq (series : list pyval) (value : pyval) : list bool :=
  map (fun cell => pyval_eqb cell value) series.

(** [df[mask]]: the rows under a true entry of the mask. *)
Definition select (df : DataFrame) (mask : list bool) : DataFrame :=
  mkDataFrame (columns df) (map fst (filter snd (combine (rows df) mask))).

(** [df.empty]: no row or no column. *)
Definition empty (df : DataFrame) : bool :=
  (length (rows df) =? 0)%nat || (length (columns df) =? 0)%nat.

(** [series.iloc[0]] *)
Definition iloc0 (series : list pyval) : result pyval :=
  match series with
  | [] => Raise (IndexError "single positional indexer is out-of-bounds")
  | cell :: _ => Ok cell
  end.

Definition not_found (id_ : string) : exn :=
  ValueError ("doc_id: " ++ id_ ++ " not found in corpus_data.").

Definition fetch_one_content (corpus_data : DataFrame) (id_ : pyval)
  (column_name : string) : result pyval :=
  match id_ with
  | VStr s =>
      if existsb (pyval_eqb id_) [VStr EmptyString; VStr EmptyString] then
        Ok VNone
      else
        doc_ids <- getitem corpus_data "doc_id" ;;
        let fetch_result := select corpus_data (series_eq doc_ids id_) in
        if empty fetch_result then Raise (not_found s)
        else
          column <- getitem fetch_result column_name ;;
          iloc0 column
  | _ => Ok VNone
  end.

(** Whether a row has the given string as its [doc_id]. *)
Definition has_doc_id (s : string) (row : string -> pyval) : bool :=
  pyval_eqb (row "doc_id"%string) (VStr s).

(** ** The cells of a column *)

(** A cell as Python reads it from a column: one of the values of
    [pyval], or a float, which is [NaN] or the finite [m * 2^e]. *)
Inductive cell : Type :=
| CObj (v : pyval)
| CNaN
| CFloat (m e : Z).

(** The dtypes that pandas infers for a list of such cells. *)
Inductive dtype : Type :=
| object
| int64
| float64.

(** [z / 2^shift] rounded to the nearest integer, a tie to the even one. *)
Definition round_half_even (z shift : Z) : Z :=
  let q := Z.shiftr z shift in
  let r := z - Z.shiftl q shift in
  let half := Z.shiftl 1 (shift - 1) in
  if r <? half then q
  else if half <? r then q + 1
  else if Z.even q then q else q + 1.

(** [float(z)]: the double nearest to the integer [z], which keeps 53
    significant bits of it. *)
Definition float_of_int (z : Z) : cell :=
  let shift := Z.log2 (Z.abs z) + 1 - 53 in
  if shift <=? 0 then CFloat z 0
  else CFloat (Z.shiftl (round_half_even z shift) shift) 0.

Definition is_none (c : cell) : bool :=
  match c with CObj VNone => true | _ => false end.

Definition is_int (c : cell) : bool :=
  match c with CObj (VInt _) => true | _ => false end.

Definition is_float (c : cell) : bool :=
  match c with CNaN | CFloat _ _ => true | _ => false end.

(** Strings, tuples and lists make a column of Python objects. *)
Definition is_object (c : cell) : bool :=
  match c with
  | CObj (VStr _) | CObj (VTuple _) | CObj (VList _) => true
  | _ => false
  end.

(** The dtype that pandas 2 infers for a list given as a column
    ([lib.maybe_convert_objects]), the integers being those of 64 bits:
    any string, tuple or list leaves a column of objects; otherwise a
    float, or [None] next to an integer, makes the column one of floats;
    integers alone are kept as integers, and [None] alone as objects. *)
Definition infer_dtype (values : list cell) : dtype :=
  if existsb is_object values then object
  else if existsb is_float values
          || (existsb is_none values && existsb is_int values) then float64
  else if existsb is_int values then int64
  else object.

(** A cell as stored under a dtype and read back: in a column of floats
    [None] is [NaN] and an integer is the float nearest to it. *)
Definition astype (d : dtype) (c : cell) : cell :=
  match d with
  | float64 =>
      match c with
      | CObj VNone => CNaN
      | CObj (VInt z) => float_of_int z
      | _ => c
      end
  | _ => c
  end.

(** The cell read back for [c] from a column assigned [values]. *)
Definition pandas_cast (values : list cell) (c : cell) : cell :=
  astype (infer_dtype values) c.

(** The same for values of [pyval]. *)
Definition pandas_cast_obj (values : list pyval) (v : pyval) : cell :=
  pandas_cast (map CObj values) (CObj v).

(** ** [fetch_contents] *)

(** [list(map(f, l))] for an [f] that may raise: the elements are visited
    from the left and the first exception ends the call. *)
Fixpoint map_result {X Y : Type} (f : X -> result Y) (l : list X)
  : result (list Y) :=
  match l with
  | [] => Ok []
  | x :: rest =>
      y <- f x ;;
      ys <- map_result f rest ;;
      Ok (y :: ys)
  end.

Definition fetch_contents_pure (ids : list pyval) (corpus_data : DataFrame)
  (column_name : string) : result (list pyval) :=
  map_result (fun x => fetch_one_content corpus_data x column_name) ids.

(** [fetch_contents]; [nan] is the marker that [explode] puts in for a
    row without identifiers, [cast] the reading back of the column that
    holds the contents fetched. *)
Definition fetch_contents {C : Type} (nan : pyval)
  (cast : list pyval -> pyval -> C) (corpus_data : DataFrame)
  (ids : list (list pyval)) (column_name : string)
  : result (list (list C)) :=
  flatten_apply nan cast
    (fun flat => fetch_contents_pure flat corpus_data column_name) ids.

(** The value of a call, [None] standing for one that raised. *)
Definition value_or_none (r : result pyval) : pyval :=
  match r with
  | Ok v => v
  | Raise _ => VNone
  end.

(** ** [openai_truncate_by_token] and [embedding_query_content] *)

Section Embedding.

(** An embedding vector. *)
Variable Vec : Type.

Record Tokenizer : Type := mkTokenizer {
  encode : string -> list Z;
  decode : list Z -> string
}.

(** [tiktoken.encoding_for_model]: [KeyError] for a model it does not
    know. *)
Variable encoding_for_model : string -> result Tokenizer.

Definition truncate_text (text : string) (limit : Z) (tokenizer : Tokenizer)
  : string :=
  let tokens := encode tokenizer text in
  if len tokens <=? limit then text
  else decode tokenizer (slice tokens 0 limit).

Definition openai_truncate_by_token (texts : list string) (token_limit : Z)
  (model_name : string) : result (list string) :=
  tokenizer <- encoding_for_model model_name ;;
  Ok (map (fun x => truncate_text x token_limit tokenizer) texts).

(** The embedding model object: whether it is an [OpenAIEmbedding], its
    attributes, and its batched embedding call, which reads the batch
    size set on the object. *)
Record EmbeddingModel : Type := mkEmbeddingModel {
  is_openai : bool;
  model_name : string;
  embed_batch_size : Z;
  embed : Z -> list string -> result (list Vec)
}.

(** [embedding_model.embed_batch_size = batch] *)
Definition set_embed_batch_size (m : EmbeddingModel) (batch : Z)
  : EmbeddingModel :=
  mkEmbeddingModel (is_openai m) (model_name m) batch (embed m).

Definition get_text_embedding_batch (m : EmbeddingModel) (texts : list string)
  : result (list Vec) :=
  embed m (embed_batch_size m) texts.

(** The inputs after the [isinstance(embedding_model, OpenAIEmbedding)]
    branch: truncated for an OpenAI model, as given otherwise ([None] is
    no instance of it). *)
Definition truncate_inputs (embedding_model : option EmbeddingModel)
  (queries flatten_contents : list string) (limit : Z)
  : result (list string * list string) :=
  match embedding_model with
  | Some m =>
      if is_openai m then
        queries' <- openai_truncate_by_token queries limit (model_name m) ;;
        flatten_contents' <-
          openai_truncate_by_token flatten_contents limit (model_name m) ;;
        Ok (queries', flatten_contents')
      else Ok (queries, flatten_contents)
  | None => Ok (queries, flatten_contents)
  end.

Definition embedding_query_content (queries : list string)
  (contents_list : list (list string))
  (embedding_model : option EmbeddingModel) (batch : Z)
  : result (list Vec * list (list Vec)) :=
  let flatten_contents := flatten contents_list in
  let openai_embedding_limit := 8191 in
  inputs <- truncate_inputs embedding_model queries flatten_contents
              openai_embedding_limit ;;
  let queries := fst inputs in
  let flatten_contents := snd inputs in
  match embedding_model with
  | None =>
      Raise (AttributeError
               "'NoneType' object has no attribute 'embed_batch_size'")
  | Some m =>
      let embedding_model := set_embed_batch_size m batch in
      query_embeddings <- get_text_embedding_batch embedding_model queries ;;
      let content_lengths := row_lengths contents_list in
      content_embeddings_flatten <-
        get_text_embedding_batch embedding_model flatten_contents ;;
      content_embeddings <-
        reconstruct_list content_embeddings_flatten content_lengths ;;
      Ok (query_embeddings, content_embeddings)
  end.

(** The embedding call answers with one vector for each input text. *)
Definition one_vector_per_text (m : EmbeddingModel) (batch : Z) : Prop :=
  forall texts, exists vectors,
    embed m batch texts = Ok vectors /\ length vectors = length texts.

End Embedding.

Arguments mkTokenizer _ _ : clear implicits.
Arguments mkEmbeddingModel {Vec} _ _ _ _.
Arguments is_openai {Vec} _.
Arguments model_name {Vec} _.
Arguments embed_batch_size {Vec} _.
Arguments embed {Vec} _ _ _.
Arguments set_embed_batch_size {Vec} _ _.
Arguments get_text_embedding_batch {Vec} _ _.
Arguments truncate_inputs {Vec} _ _ _ _ _.
Arguments embedding_query_content {Vec} _ _ _ _ _.
Arguments one_vector_per_text {Vec} _ _.

(** ** Sample data for the worked examples *)

(** A corpus of three rows, two of them under the same [doc_id]. *)
Definition sample_corpus : DataFrame :=
  mkDataFrame ["doc_id"%string; "contents"%string]
    [ (fun c => if String.eqb c "doc_id" then VStr "d1" else VStr "first");
      (fun c => if String.eqb c "doc_id" then VStr "d2" else VStr "second");
      (fun c => if String.eqb c "doc_id" then VStr "d2" else VStr "third") ].

(** A corpus whose contents are numbers. *)
Definition numeric_corpus : DataFrame :=
  mkDataFrame ["doc_id"%string; "contents"%string]
    [ (fun c => if String.eqb c "doc_id" then VStr "a" else VInt 5);
      (fun c => if String.eqb c "doc_id" then VStr "b" else VInt 6) ].

(** A model that is no [OpenAIEmbedding] and embeds a text as its length. *)
Definition length_model : EmbeddingModel nat :=
  mkEmbeddingModel false "length-model" 10
    (fun _ texts => Ok (map String.length texts)).

Definition no_tokenizer (name : string) : result Tokenizer :=
  Raise (KeyError name).

(** An [OpenAIEmbedding] under a name of its deployment, embedding a
    text as its length. *)
Definition openai_model : EmbeddingModel nat :=
  mkEmbeddingModel true "my-deployment" 10
    (fun _ texts => Ok (map String.length texts)).

(** ** Further operations on dictionaries *)

(** [d[k]], [None] standing for the [KeyError] of a missing key. *)
Fixpoint dict_get {V : Type} (d : dict V) (k : string) : option V :=
  match d with
  | [] => None
  | (k', v) :: rest => if String.eqb k' k then Some v else dict_get rest k
  end.

(** [k in d] *)
Definition dict_contains {V : Type} (d : dict V) (k : string) : bool :=
  existsb (fun kv => String.eqb (fst kv) k) d.

(** [replace_value_in_dict]; the deep copy is the value itself here. *)
Definition replace_value_in_dict {V : Type} (target_dict : dict V)
  (key : string) (replace_value : V) : dict V :=
  let replaced_dict := target_dict in
  if negb (dict_contains replaced_dict key) then replaced_dict
  else dict_set replaced_dict key replace_value.

Definition key_not_found (key : string) : exn :=
  KeyError ("Key '" ++ key ++ "' not found in dictionary.").

(** The loop of [filter_dict_keys] over [keys], [result] being the
    dictionary built so far; [key in dict_] and [dict_[key]] are the one
    lookup. *)
Fixpoint filter_dict_keys_loop {V : Type} (dict_ : dict V) (keys : list string)
  (result : dict V) : Py.result (dict V) :=
  match keys with
  | [] => Ok result
  | key :: rest =>
      match dict_get dict_ key with
      | Some v => filter_dict_keys_loop dict_ rest (dict_set result key v)
      | None => Raise (key_not_found key)
      end
  end.

Definition filter_dict_keys {V : Type} (dict_ : dict V) (keys : list string)
  : Py.result (dict V) :=
  filter_dict_keys_loop dict_ keys [].

(** ** [sort_by_scores] *)

Section Sorted.

Variables (X K : Type) (key : X -> K).

(** [a < b] on keys. *)
Variable lt : K -> K -> bool.

(** Putting [x], which stood before the elements of [l], in its place:
    before the first element whose key is not below its own. *)
Fixpoint insert_sorted (x : X) (l : list X) : list X :=
  match l with
  | [] => [x]
  | y :: ys =>
      if lt (key y) (key x) then y :: insert_sorted x ys
      else x :: y :: ys
  end.

(** A stable sort by increasing key.  [list.sort] is stable; where [<]
    orders the keys there is one stable arrangement, which this gives. *)
Fixpoint stable_sort (l : list X) : list X :=
  match l with
  | [] => []
  | x :: xs => insert_sorted x (stable_sort xs)
  end.

(** [sorted(l, key=key, reverse=reverse)]: for [reverse] the list is
    reversed, sorted and reversed back, as [list.sort] does it, so that
    elements of equal keys keep their order. *)
Definition sorted (l : list X) (reverse : bool) : list X :=
  if reverse then rev (stable_sort (rev l)) else stable_sort l.

End Sorted.

Arguments insert_sorted {X K} key lt x l.
Arguments stable_sort {X K} key lt l.
Arguments sorted {X K} key lt l reverse.

(** [zip(a, b, c)]: as long as the shortest. *)
Fixpoint zip3 {C I S : Type} (a : list C) (b : list I) (c : list S)
  : list (C * I * S) :=
  match a, b, c with
  | x :: a', y :: b', z :: c' => (x, y, z) :: zip3 a' b' c'
  | _, _, _ => []
  end.

Section SortByScores.

Variables C I S : Type.
Variable lt : S -> S -> bool.

(** The row: what is under its keys [contents], [ids] and [scores]. *)
Record ScoredRow : Type := mkScoredRow {
  row_contents : list C;
  row_ids : list I;
  row_scores : list S
}.

(** Unpacking [zip] of no triple into three names raises. *)
Definition sort_by_scores (row : ScoredRow) (reverse : bool)
  : result (list C * list I * list S) :=
  let results :=
    sorted (fun x : C * I * S => snd x) lt
           (zip3 (row_contents row) (row_ids row) (row_scores row)) reverse in
  match results with
  | [] => Raise (ValueError "not enough values to unpack (expected 3, got 0)")
  | _ :: _ =>
      Ok (map (fun x => fst (fst x)) results,
          map (fun x => snd (fst x)) results,
          map (fun x => snd x) results)
  end.

End SortByScores.

Arguments mkScoredRow {C I S} _ _ _.
Arguments row_contents {C I S} _.
Arguments row_ids {C I S} _.
Arguments row_scores {C I S} _.
Arguments sort_by_scores {C I S} lt row reverse.

(** ** [select_top_k] *)

(** The loop of [select_top_k] over the column names on a frame given by
    its columns, each the list of its cells: the frame as the call leaves
    it, changed in place, and whether the call returned it or raised. *)
Fixpoint select_top_k {A : Type} (df : dict (list (list A)))
  (column_names : list string) (top_k : Z)
  : dict (list (list A)) * result unit :=
  match column_names with
  | [] => (df, Ok tt)
  | column_name :: rest =>
      match dict_get df column_name with
      | None => (df, Raise (KeyError column_name))
      | Some cells =>
          select_top_k
            (dict_set df column_name (map (fun x => slice x 0 top_k) cells))
            rest top_k
      end
  end.

(** ** [split_dataframe] *)

Inductive arithmetic_error : Type :=
| ZeroDivisionError.

(** [range(stop)] *)
Definition range_to (stop : Z) : list Z :=
  map Z.of_nat (seq 0 (Z.to_nat (range_length 0 stop 1))).

(** [split_dataframe] on a frame given by its rows; [//] and [%] round to
    the floor, as [Z.div] and [Z.modulo] do, and raise on a zero divisor;
    the index that [reset_index] renumbers is the position in the list. *)
Definition split_dataframe {A : Type} (df : list A) (chunk_size : Z)
  : arithmetic_error + list (list A) :=
  if chunk_size =? 0 then inl ZeroDivisionError
  else
    let num_chunks :=
      if negb (len df mod chunk_size =? 0) then len df / chunk_size + 1
      else len df / chunk_size in
    inr (map (fun x => slice df (x * chunk_size) ((x + 1) * chunk_size))
             (range_to num_chunks)).

(** ** [explode] *)

Inductive assertion_error : Type :=
| AssertionError (msg : string).

Module Util.

(** [explode(index_values, explode_values)]: the frame of the two columns
    exploded on the second, an empty collection leaving one row with the
    marker [nan]; then the two columns.  The column of the index values
    is read back as pandas stores it ([cast], as for [flatten_apply]);
    the column of the collections holds Python objects and gives its
    cells back as they are. *)
Definition explode {I J A : Type} (nan : A) (cast : list I -> I -> J)
  (index_values : list I) (explode_values : list (list A))
  : assertion_error + (list J * list A) :=
  if (length index_values =? length explode_values)%nat then
    let df :=
      flat_map (fun iv => map (pair (fst iv)) (placeholder_row nan (snd iv)))
               (combine (as_column cast index_values) explode_values) in
    inr (map fst df, map snd df)
  else
    inl (AssertionError "Index values and explode values must have same length").

End Util.

(** Cutting a list into consecutive pieces of the given sizes. *)
Fixpoint cut_by {B : Type} (sizes : list nat) (values : list B)
  : list (list B) :=
  match sizes with
  | [] => []
  | n :: rest => firstn n values :: cut_by rest (skipn n values)
  end.


(** ** [convert_env_in_dict] *)

(** A text is the string of its bytes; the patterns below are ASCII, and
    no byte of a longer UTF-8 character is an ASCII byte. *)
Definition newline : ascii := ascii_of_nat 10.

(** Whether the character occurs in the text. *)
Fixpoint has_char (c : ascii) (s : string) : bool :=
  match s with
  | EmptyString => false
  | String c' rest => Ascii.eqb c' c || has_char c rest
  end.

(** What the group [(.*?)] followed by the closing brace matches at the
    head of a text: the text before the first closing brace, when no line
    break comes before it ([.] matches no line break). *)
Fixpoint read_name (s : string) : option string :=
  match s with
  | EmptyString => None
  | String c rest =>
      if Ascii.eqb c "}" then Some EmptyString
      else if Ascii.eqb c newline then None
      else option_map (String c) (read_name rest)
  end.

(** The text without its first character. *)
Definition string_tail (s : string) : string :=
  match s with
  | EmptyString => EmptyString
  | String _ rest => rest
  end.

(** [env_pattern.findall(val)] for the pattern [.*?\${(.*?)}.*?]: the
    names between a dollar-brace and the next closing brace on the same
    line, from left to right, the search going on after each match;
    [skip] counts the characters of a match still to pass over.  The lazy
    [.*?] before the dollar lets a match begin anywhere, so the first
    dollar-brace that closes is the one matched; the lazy [.*?] at the end
    matches nothing. *)
Fixpoint env_pattern_findall (skip : nat) (s : string) : list string :=
  match s with
  | EmptyString => []
  | String c rest =>
      match skip with
      | S k => env_pattern_findall k rest
      | O =>
          if String.prefix "${" s then
            match read_name (string_tail rest) with
            | Some name =>
                name :: env_pattern_findall (String.length name + 2) rest
            | None => env_pattern_findall 0 rest
            end
          else env_pattern_findall 0 rest
      end
  end.

(** [s.replace(old, new)] for a non-empty [old]: the occurrences of [old]
    found from the left, none overlapping another; [skip] counts the
    characters of an occurrence still to pass over. *)
Fixpoint replace_from (old new : string) (skip : nat) (s : string) : string :=
  match s with
  | EmptyString => EmptyString
  | String c rest =>
      match skip with
      | S k => replace_from old new k rest
      | O =>
          if String.prefix old s then
            new ++ replace_from old new (String.length old - 1) rest
          else String c (replace_from old new 0 rest)
      end
  end.

Definition str_replace (s old new : string) : string :=
  replace_from old new 0 s.

Section ConvertEnv.

(** [os.environ] *)
Variable environ : string -> option string.

(** [os.environ.get(name, "")] *)
Definition environ_get (name : string) : string :=
  match environ name with
  | Some value => value
  | None => EmptyString
  end.

Definition convert_env (val : string) : string :=
  let matches := env_pattern_findall 0 val in
  fold_left (fun val m => str_replace val ("${" ++ m ++ "}") (environ_get m))
            matches val.

(** A configuration value: a string, a dictionary, a list, or any other
    scalar (a number, a truth value, [None]). *)
Inductive config : Type :=
| CStr (s : string)
| CDict (items : list (string * config))
| CList (items : list config)
| CScalar (z : Z).

(** [convert_env_in_dict] on the dictionary under a [CDict]; the values
    are replaced in place, so the result is the dictionary itself after
    the call.  A value that is referred to from one place only is meant:
    the call would visit a shared dictionary once for each reference. *)
Fixpoint convert_env_in_node (v : config) : config :=
  match v with
  | CDict d =>
      CDict (map (fun kv =>
                    match kv with
                    | (key, value) =>
                        (key,
                         match value with
                         | CDict _ => convert_env_in_node value
                         | CList items =>
                             CList (map (fun item =>
                                           match item with
                                           | CDict _ => convert_env_in_node item
                                           | CStr s => CStr (convert_env s)
                                           | _ => item
                                           end) items)
                         | CStr s => CStr (convert_env s)
                         | _ => value
                         end)
                    end) d)
  | _ => v
  end.

Definition convert_env_in_dict (d : list (string * config))
  : list (string * config) :=
  match convert_env_in_node (CDict d) with
  | CDict d' => d'
  | _ => d
  end.

(** Whether no string of the value, at any depth, holds a dollar. *)
Fixpoint dollar_free (v : config) : bool :=
  match v with
  | CStr s => negb (has_char "$" s)
  | CDict d => forallb (fun kv => dollar_free (snd kv)) d
  | CList items => forallb dollar_free items
  | CScalar _ => true
  end.

End ConvertEnv.


(** The induction principle of [config] that reaches the values of a
    dictionary and the items of a list. *)
Section ConfigInduction.

Variable P : config -> Prop.
Hypothesis HStr : forall s, P (CStr s).
Hypothesis HDict : forall d, Forall (fun kv => P (snd kv)) d -> P (CDict d).
Hypothesis HList : forall items, Forall P items -> P (CList items).
Hypothesis HScalar : forall z, P (CScalar z).

Fixpoint config_nested_ind (v : config) : P v :=
  match v with
  | CStr s => HStr s
  | CDict d =>
      HDict d
        ((fix all (l : list (string * config))
            : Forall (fun kv => P (snd kv)) l :=
            match l with
            | [] => Forall_nil _
            | kv :: rest =>
                Forall_cons kv (config_nested_ind (snd kv)) (all rest)
            end) d)
  | CList items =>
      HList items
        ((fix all (l : list config) : Forall P l :=
            match l with
            | [] => Forall_nil _
            | x :: rest => Forall_cons x (config_nested_ind x) (all rest)
            end) items)
  | CScalar z => HScalar z
  end.

End ConfigInduction.


(** A tokenizer with one token for each character, decoding every token
    as the letter a. *)
Definition unit_tokenizer : Tokenizer :=
  mkTokenizer (fun text => map (fun _ => 0) (list_ascii_of_string text))
              (fun tokens => string_of_list_ascii (map (fun _ => "a"%char) tokens)).

(** A model that answers with one vector whatever it is given. *)
Definition short_model : EmbeddingModel nat :=
  mkEmbeddingModel false "short-model" 10 (fun _ _ => Ok [7%nat]).


(* ================================================================= *)
(** * Part II: properties *)
(* ================================================================= *)

(** ** Slices and ranges *)

Lemma slice_nonneg {A : Type} (l : list A) (a n : Z) :
  0 <= a -> 0 <= n ->
  slice l a (a + n) = firstn (Z.to_nat n) (skipn (Z.to_nat a) l).
Proof.
  intros Ha Hn. unfold slice, adjust_index, len.
  destruct (a <? 0) eqn:E1; [apply Z.ltb_lt in E1; lia|].
  destruct (a + n <? 0) eqn:E2; [apply Z.ltb_lt in E2; lia|].
  set (L := Z.of_nat (length l)).
  destruct (Z_le_gt_dec L a) as [Hle|Hgt].
  - rewrite (Z.min_r a L) by lia.
    rewrite !skipn_all2 by lia.
    now rewrite !firstn_nil.
  - rewrite (Z.min_l a L) by lia.
    destruct (Z_le_gt_dec (a + n) L) as [Hle2|Hgt2].
    + rewrite (Z.min_l (a + n) L) by lia. f_equal. lia.
    + rewrite (Z.min_r (a + n) L) by lia.
      rewrite !firstn_all2; auto; rewrite length_skipn; lia.
Qed.

Lemma range_pos (n k : Z) :
  0 <= n -> 0 < k ->
  range 0 n k =
  Ok (map (fun i => Z.of_nat i * k) (seq 0 (ceil_div (Z.to_nat n) (Z.to_nat k)))).
Proof.
  intros Hn Hk. unfold range.
  destruct (k =? 0) eqn:E; [apply Z.eqb_eq in E; lia|].
  f_equal.
  assert (Hlen : Z.to_nat (range_length 0 n k)
                 = ceil_div (Z.to_nat n) (Z.to_nat k)).
  { unfold range_length, ceil_div.
    destruct (0 <? k) eqn:E1; [|apply Z.ltb_ge in E1; lia].
    destruct (0 <? n) eqn:E2.
    - apply Z.ltb_lt in E2.
      replace (n - 0 - 1) with (n - 1) by lia.
      pose proof (Z.div_mod (n - 1) k ltac:(lia)) as Hdm.
      pose proof (Z.mod_pos_bound (n - 1) k Hk) as Hr.
      assert (Hq : 0 <= (n - 1) / k) by (apply Z.div_pos; lia).
      set (q := (n - 1) / k) in *. set (r := (n - 1) mod k) in *.
      apply Nat.div_unique with (r := Z.to_nat r); [lia|].
      apply Nat2Z.inj.
      rewrite Nat2Z.inj_add, Nat2Z.inj_mul, Nat2Z.inj_sub by lia.
      rewrite Nat2Z.inj_add, !Z2Nat.id by lia.
      change (Z.of_nat 1) with 1. lia.
    - apply Z.ltb_ge in E2. assert (n = 0) by lia. subst n.
      simpl. replace (0 + Z.to_nat k - 1)%nat with (Z.to_nat k - 1)%nat by lia.
      symmetry. apply Nat.div_small. lia. }
  rewrite Hlen. apply map_ext. intros; lia.
Qed.

Lemma range_neg (n k : Z) : 0 <= n -> k < 0 -> range 0 n k = Ok [].
Proof.
  intros Hn Hk. unfold range, range_length.
  destruct (k =? 0) eqn:E; [apply Z.eqb_eq in E; lia|].
  destruct (0 <? k) eqn:E1; [apply Z.ltb_lt in E1; lia|].
  destruct (n <? 0) eqn:E2; [apply Z.ltb_lt in E2; lia|].
  reflexivity.
Qed.

Lemma firstn_plus {A : Type} (a b : nat) (l : list A) :
  firstn (a + b) l = firstn a l ++ firstn b (skipn a l).
Proof.
  revert l; induction a as [|a IH]; intros l; simpl; auto.
  destruct l as [|x l]; simpl.
  - now rewrite firstn_nil.
  - now rewrite IH.
Qed.

Lemma skipn_plus {A : Type} (a b : nat) (l : list A) :
  skipn (a + b) l = skipn b (skipn a l).
Proof.
  revert l; induction a as [|a IH]; intros l; simpl; auto.
  destruct l as [|x l]; simpl; auto. now rewrite skipn_nil.
Qed.

(** ** [chunk], the reference for batching *)

Lemma chunk_as_map {A : Type} (m k : nat) (l : list A) :
  chunk m k l = map (fun i => firstn k (skipn (i * k) l)) (seq 0 m).
Proof.
  revert l; induction m as [|m IH]; intros l; simpl; auto.
  f_equal. rewrite <- seq_shift, map_map, IH.
  apply map_ext; intros i. simpl. now rewrite skipn_plus.
Qed.

Lemma chunk_length {A : Type} (m k : nat) (l : list A) :
  length (chunk m k l) = m.
Proof. revert l; induction m; intros; simpl; auto. Qed.

Lemma chunk_concat {A : Type} (m k : nat) (l : list A) :
  concat (chunk m k l) = firstn (m * k) l.
Proof.
  revert l; induction m as [|m IH]; intros l; simpl; auto.
  now rewrite IH, firstn_plus.
Qed.

Lemma chunk_nth_error {A : Type} (m k : nat) (l : list A) (i : nat) (b : list A) :
  nth_error (chunk m k l) i = Some b ->
  (i < m)%nat /\ b = firstn k (skipn (i * k) l).
Proof.
  intros H.
  assert (Hi : (i < m)%nat).
  { rewrite <- (chunk_length m k l). apply nth_error_Some. congruence. }
  split; auto.
  rewrite chunk_as_map in H.
  rewrite nth_error_map, nth_error_seq in H.
  destruct (Nat.ltb_spec i m); [|lia].
  simpl in H. congruence.
Qed.

Lemma ceil_div_bounds (n k : nat) :
  (0 < k)%nat ->
  (n <= ceil_div n k * k)%nat /\
  (0 < n -> 0 < ceil_div n k /\ (ceil_div n k - 1) * k < n)%nat /\
  (n = 0 -> ceil_div n k = 0)%nat.
Proof.
  intros Hk. unfold ceil_div.
  pose proof (Nat.div_mod_eq (n + k - 1) k) as Hdm.
  pose proof (Nat.mod_upper_bound (n + k - 1) k ltac:(lia)) as Hr.
  set (q := ((n + k - 1) / k)%nat) in *.
  set (r := ((n + k - 1) mod k)%nat) in *.
  repeat split; try intros Hn; nia.
Qed.

Lemma make_batch_pos {A : Type} (elems : list A) (batch_size : Z) :
  0 < batch_size ->
  make_batch elems batch_size =
  Ok (chunk (ceil_div (length elems) (Z.to_nat batch_size))
            (Z.to_nat batch_size) elems).
Proof.
  intros Hk. unfold make_batch.
  rewrite range_pos by (unfold len; lia). simpl.
  unfold len. rewrite Nat2Z.id.
  rewrite map_map, chunk_as_map. f_equal.
  apply map_ext; intros i.
  rewrite slice_nonneg by lia. f_equal. f_equal.
  rewrite Z2Nat.inj_mul, Nat2Z.id by lia. reflexivity.
Qed.

(** C6 (as the code has it): a zero batch size fails with the
    [ValueError] of [range]; a negative batch size does not fail and
    gives no batch at all; a positive batch size gives [ceil(n / k)]
    consecutive chunks whose concatenation is the input, every chunk
    non-empty and of at most [k] elements, and every chunk but the last of
    exactly [k]. *)
Theorem make_batch_spec {A : Type} (elems : list A) (batch_size : Z) :
  (batch_size = 0 ->
   make_batch elems batch_size
   = Raise (ValueError "range() arg 3 must not be zero")) /\
  (batch_size < 0 -> make_batch elems batch_size = Ok []) /\
  (0 < batch_size ->
   exists batches,
     make_batch elems batch_size = Ok batches /\
     concat batches = elems /\
     length batches = ceil_div (length elems) (Z.to_nat batch_size) /\
     forall i b, nth_error batches i = Some b ->
       b = firstn (Z.to_nat batch_size) (skipn (i * Z.to_nat batch_size) elems) /\
       0 < len b <= batch_size /\
       (S i < length batches -> len b = batch_size)%nat).
Proof.
  split; [|split].
  - intros ->. reflexivity.
  - intros Hk. unfold make_batch. rewrite range_neg by (unfold len; lia).
    reflexivity.
  - intros Hk. rewrite make_batch_pos by assumption.
    set (k := Z.to_nat batch_size). set (n := length elems).
    assert (Hk' : (0 < k)%nat) by (unfold k; lia).
    destruct (ceil_div_bounds n k Hk') as (Hup & Hlo & Hz).
    eexists; split; [reflexivity|]. split; [|split].
    + rewrite chunk_concat. apply firstn_all2. fold n. lia.
    + apply chunk_length.
    + intros i b Hb. apply chunk_nth_error in Hb. destruct Hb as [Hi ->].
      split; auto. rewrite chunk_length. unfold len.
      rewrite length_firstn, length_skipn. fold n.
      assert (Hn : (0 < n)%nat) by (destruct n; [rewrite Hz in Hi by auto|]; lia).
      destruct (Hlo Hn) as [Hm Hlast].
      assert (Hik : (i * k <= (ceil_div n k - 1) * k)%nat) by (apply Nat.mul_le_mono_r; lia).
      split; [unfold k in *; lia|].
      intros Hnext.
      assert (Hik' : ((i + 1) * k <= (ceil_div n k - 1) * k)%nat) by (apply Nat.mul_le_mono_r; lia).
      unfold k in *; lia.
Qed.

Lemma make_batch_spec_witness :
  exists batches,
    make_batch [1; 2; 3; 4; 5] 2 = Ok batches /\
    concat batches = [1; 2; 3; 4; 5] /\
    length batches = 3%nat.
Proof.
  destruct (make_batch_spec [1; 2; 3; 4; 5] 2) as (_ & _ & H).
  destruct (H ltac:(lia)) as (bs & H1 & H2 & H3 & _).
  exists bs. repeat split; assumption.
Defined.

(** C6 (as stated) fails: a negative batch size raises nothing. *)
Lemma make_batch_negative_counterexample :
  make_batch [1; 2; 3] (-1) = Ok [] /\
  (forall e, make_batch [1; 2; 3] (-1) <> Raise e) /\
  -1 <= 0.
Proof. repeat split; [intros e; discriminate | lia]. Qed.

(** ** [reconstruct_list] *)

Lemma reconstruct_loop_acc {A : Type} (flat : list A) (lengths : list Z)
  (acc : list (list A)) (start : Z) :
  reconstruct_loop flat lengths acc start
  = acc ++ reconstruct_loop flat lengths [] start.
Proof.
  revert acc start; induction lengths as [|n rest IH]; intros acc start; simpl.
  - now rewrite app_nil_r.
  - rewrite IH. rewrite (IH [_]). now rewrite <- app_assoc.
Qed.

Lemma reconstruct_loop_cons {A : Type} (flat : list A) (n : Z) (rest : list Z)
  (start : Z) :
  reconstruct_loop flat (n :: rest) [] start
  = slice flat start (start + n) :: reconstruct_loop flat rest [] (start + n).
Proof. simpl. now rewrite reconstruct_loop_acc. Qed.

Lemma reconstruct_loop_length {A : Type} (flat : list A) (lengths : list Z)
  (start : Z) :
  length (reconstruct_loop flat lengths [] start) = length lengths.
Proof.
  revert start; induction lengths as [|n rest IH]; intros start; auto.
  rewrite reconstruct_loop_cons. simpl. now rewrite IH.
Qed.

Lemma reconstruct_loop_roundtrip {A : Type} (pre : list A) (rows : list (list A)) :
  reconstruct_loop (pre ++ flatten rows) (row_lengths rows) [] (len pre) = rows.
Proof.
  revert pre; induction rows as [|r rows IH]; intros pre; auto.
  unfold row_lengths, flatten in *. simpl map. simpl concat.
  rewrite reconstruct_loop_cons. f_equal.
  - rewrite slice_nonneg by (unfold len; lia).
    unfold len. rewrite !Nat2Z.id.
    rewrite skipn_app, skipn_all, Nat.sub_diag. simpl.
    rewrite firstn_app, firstn_all, Nat.sub_diag. simpl. apply app_nil_r.
  - replace (len pre + len r) with (len (pre ++ r))
      by (unfold len; rewrite length_app; lia).
    rewrite app_assoc. apply IH.
Qed.

(** C1: flattening a ragged list and reconstructing it with its own row
    lengths gives the ragged list back. *)
Theorem reconstruct_list_flatten_roundtrip {A : Type} (rows : list (list A)) :
  reconstruct_list (flatten rows) (row_lengths rows) = Ok rows.
Proof.
  unfold reconstruct_list. f_equal.
  apply (reconstruct_loop_roundtrip [] rows).
Qed.

Lemma reconstruct_loop_concat {A : Type} (flat : list A) (lengths : list Z)
  (start : Z) :
  0 <= start -> Forall (fun n => 0 <= n) lengths ->
  concat (reconstruct_loop flat lengths [] start)
  = firstn (Z.to_nat (sum lengths)) (skipn (Z.to_nat start) flat) /\
  Forall2 (fun row n => len row <= n)
          (reconstruct_loop flat lengths [] start) lengths.
Proof.
  intros Hs Hall. revert start Hs.
  induction Hall as [|n rest Hn Hrest IH]; intros start Hs.
  - simpl. split; [reflexivity | constructor].
  - rewrite reconstruct_loop_cons. simpl concat.
    destruct (IH (start + n) ltac:(lia)) as [IHc IHf].
    assert (Hsum : 0 <= sum rest).
    { clear -Hrest. induction Hrest; simpl; lia. }
    split.
    + rewrite IHc, slice_nonneg by lia. simpl sum.
      rewrite (Z2Nat.inj_add n) by lia. rewrite firstn_plus.
      rewrite (Z2Nat.inj_add start) by lia. now rewrite skipn_plus.
    + constructor; auto.
      rewrite slice_nonneg by lia. unfold len. rewrite length_firstn. lia.
Qed.

(** C3 (as the code has it): [reconstruct_list] never fails.  It returns
    one row per declared length; for non-negative lengths the rows are
    consecutive slices whose concatenation is the first [sum lengths]
    elements of the flat list, each row no longer than declared: rows are
    cut short when the lengths ask for more than there is, and the tail is
    left out when they ask for less. *)
Theorem reconstruct_list_lenient {A : Type} (flat_list : list A) (lengths : list Z) :
  exists rows,
    reconstruct_list flat_list lengths = Ok rows /\
    length rows = length lengths /\
    (Forall (fun n => 0 <= n) lengths ->
     concat rows = firstn (Z.to_nat (sum lengths)) flat_list /\
     Forall2 (fun row n => len row <= n) rows lengths).
Proof.
  eexists; split; [reflexivity|]. split.
  - apply reconstruct_loop_length.
  - intros Hall. apply (reconstruct_loop_concat flat_list lengths 0); auto; lia.
Qed.

Lemma reconstruct_list_lenient_witness :
  exists rows,
    reconstruct_list [1; 2; 3] [2; 0] = Ok rows /\
    concat rows = [1; 2].
Proof.
  destruct (reconstruct_list_lenient [1; 2; 3] [2; 0]) as (rows & H1 & _ & H3).
  exists rows. split; [exact H1|].
  apply H3. repeat constructor; lia.
Defined.

(** C3 (as stated) fails: declared lengths that sum to less, or to more,
    than the flat list are accepted, the result silently dropping the tail
    or cutting a row short. *)
Lemma reconstruct_list_mismatch_counterexample :
  sum [2] <> len [1; 2; 3] /\
  reconstruct_list [1; 2; 3] [2] = Ok [[1; 2]] /\
  sum [2; 2] <> len [1; 2; 3] /\
  reconstruct_list [1; 2; 3] [2; 2] = Ok [[1; 2]; [3]].
Proof. repeat split; discriminate. Qed.

(** ** [process_batch] *)

Section TaskProperties.

Context {R : Type}.
Implicit Types (t : Task R) (batch tasks started : list (Task R)).
Implicit Types (rs results : list R) (batches : list (list (Task R))).

Lemma succeeds_or_fails t : succeeds t \/ fails t.
Proof.
  unfold succeeds, fails. destruct (outcome t) as [r|e]; eauto.
Qed.

Lemma succeeds_not_fails t : succeeds t -> ~ fails t.
Proof. intros [r Hr] [e He]. congruence. Qed.

Lemma earliest_failure_in batch d e :
  earliest_failure batch = Some (d, e) ->
  exists t, In t batch /\ outcome t = Raise e /\ completes_at t = d.
Proof.
  revert d e; induction batch as [|t rest IH]; intros d e H; simpl in H.
  - discriminate.
  - destruct (outcome t) as [r|e0] eqn:Ho.
    + destruct (IH _ _ H) as (c & Hin & Hc). exists c. split; [now right|auto].
    + destruct (earliest_failure rest) as [[d' e']|] eqn:Hrest.
      * destruct (completes_at t <=? d')%nat.
        -- inversion H; subst. exists t. simpl; auto.
        -- inversion H; subst.
           destruct (IH _ _ eq_refl) as (c & Hin & Hc).
           exists c. split; [now right|auto].
      * inversion H; subst. exists t. simpl; auto.
Qed.

(** The failure that [gather] propagates is no later than any other
    failure of the batch. *)
Lemma earliest_failure_least batch d e :
  earliest_failure batch = Some (d, e) ->
  forall t, In t batch -> fails t -> (d <= completes_at t)%nat.
Proof.
  revert d e; induction batch as [|t0 rest IH]; intros d e H t Hin Hf;
    simpl in H; [contradiction|].
  destruct Hf as [ef Hef].
  destruct (outcome t0) as [r|e0] eqn:Ho.
  - destruct Hin as [->|Hin]; [congruence|].
    eapply IH; eauto. now exists ef.
  - destruct (earliest_failure rest) as [[d' e']|] eqn:Hrest.
    + destruct (Nat.leb_spec (completes_at t0) d').
      * inversion H; subst. destruct Hin as [->|Hin]; [lia|].
        specialize (IH _ _ eq_refl t Hin ltac:(now exists ef)). lia.
      * inversion H; subst. destruct Hin as [->|Hin]; [lia|].
        apply (IH _ _ eq_refl t Hin). now exists ef.
    + inversion H; subst. destruct Hin as [->|Hin]; [lia|].
      exfalso. clear IH H. induction rest as [|t1 rest IH]; [contradiction|].
      simpl in Hrest. destruct Hin as [->|Hin].
      * rewrite Hef in Hrest. destruct (earliest_failure rest) as [[? ?]|];
          [destruct (_ <=? _)%nat|]; discriminate.
      * destruct (outcome t1); [auto|].
        destruct (earliest_failure rest) as [[? ?]|];
          [destruct (_ <=? _)%nat|]; discriminate.
Qed.

Lemma earliest_failure_none batch :
  Forall succeeds batch -> earliest_failure batch = None.
Proof.
  induction 1 as [|t rest [r Hr] _ IH]; simpl; auto.
  now rewrite Hr.
Qed.

Lemma earliest_failure_some batch :
  Exists fails batch -> exists d e, earliest_failure batch = Some (d, e).
Proof.
  induction 1 as [t rest [e He]|t rest _ IH]; simpl.
  - rewrite He. destruct (earliest_failure rest) as [[d' e']|];
      [destruct (_ <=? _)%nat|]; eauto.
  - destruct IH as (d & e & ->).
    destruct (outcome t); [|destruct (_ <=? _)%nat]; eauto.
Qed.

Lemma collect_ok batch :
  Forall succeeds batch ->
  exists rs, collect batch = Ok rs /\ map outcome batch = map Ok rs.
Proof.
  induction 1 as [|t rest [r Hr] _ (rs & Hc & Hm)]; simpl.
  - now exists [].
  - rewrite Hr, Hc. simpl. exists (r :: rs). simpl. now rewrite Hm.
Qed.

Lemma gather_ok batch :
  Forall succeeds batch ->
  exists rs, gather batch = Ok rs /\ map outcome batch = map Ok rs.
Proof.
  intros H. unfold gather. rewrite earliest_failure_none by assumption.
  now apply collect_ok.
Qed.

Lemma gather_fail batch :
  Exists fails batch ->
  exists c e,
    In c batch /\ outcome c = Raise e /\ gather batch = Raise e /\
    forall t, In t batch -> fails t -> (completes_at c <= completes_at t)%nat.
Proof.
  intros H. destruct (earliest_failure_some _ H) as (d & e & He).
  destruct (earliest_failure_in _ _ _ He) as (c & Hin & Ho & Hd).
  exists c, e. unfold gather. rewrite He. repeat split; auto.
  intros t Ht Hf. rewrite Hd. eapply earliest_failure_least; eauto.
Qed.

Lemma Forall_succeeds_dec batch : Forall succeeds batch \/ Exists fails batch.
Proof.
  induction batch as [|t rest [IH|IH]]; auto.
  destruct (succeeds_or_fails t); auto.
Qed.

Lemma process_loop_batches tasks batch_size idx results started :
  process_loop tasks batch_size idx results started
  = run_batches (map (fun i => slice tasks i (i + batch_size)) idx)
                results started.
Proof.
  revert results started; induction idx as [|i rest IH]; intros; simpl; auto.
  destruct (gather _); auto.
Qed.

Lemma process_batch_chunks tasks batch_size :
  0 < batch_size ->
  process_batch tasks batch_size
  = run_batches (chunk (ceil_div (length tasks) (Z.to_nat batch_size))
                       (Z.to_nat batch_size) tasks) [] [].
Proof.
  intros Hk. pose proof (make_batch_pos tasks batch_size Hk) as Hmb.
  unfold process_batch, make_batch in *.
  destruct (range 0 (len tasks) batch_size) as [idx|e]; simpl in Hmb;
    [|discriminate].
  rewrite process_loop_batches. congruence.
Qed.

Lemma run_batches_ok batches results started :
  Forall succeeds (concat batches) ->
  exists rs,
    run_batches batches results started
    = (started ++ concat batches, Ok (results ++ rs)) /\
    map outcome (concat batches) = map Ok rs.
Proof.
  revert results started; induction batches as [|b rest IH];
    intros results started H; simpl in *.
  - exists []. now rewrite !app_nil_r.
  - apply Forall_app in H. destruct H as [Hb Hrest].
    destruct (gather_ok b Hb) as (rs1 & -> & Hm1).
    destruct (IH (results ++ rs1) (started ++ b) Hrest) as (rs2 & -> & Hm2).
    exists (rs1 ++ rs2). rewrite <- !app_assoc. split; auto.
    now rewrite !map_app, Hm1, Hm2.
Qed.

Lemma run_batches_fail batches results started :
  Exists fails (concat batches) ->
  exists pre b post c e,
    batches = pre ++ b :: post /\
    Forall succeeds (concat pre) /\
    In c b /\ outcome c = Raise e /\
    (forall t, In t b -> fails t -> (completes_at c <= completes_at t)%nat) /\
    run_batches batches results started
    = (started ++ concat pre ++ b, Raise e).
Proof.
  revert results started; induction batches as [|b rest IH];
    intros results started H; simpl in *.
  - inversion H.
  - destruct (Forall_succeeds_dec b) as [Hb|Hb].
    + apply Exists_app in H. destruct H as [H|H].
      { exfalso. apply Exists_exists in H. destruct H as (t & Hin & Hf).
        rewrite Forall_forall in Hb. eapply succeeds_not_fails; eauto. }
      destruct (gather_ok b Hb) as (rs1 & -> & _).
      destruct (IH (results ++ rs1) (started ++ b) H)
        as (pre & b' & post & c & e & -> & Hpre & Hin & Ho & Hmin & ->).
      exists (b :: pre), b', post, c, e. simpl.
      repeat split; auto.
      * apply Forall_app; auto.
      * now rewrite <- !app_assoc.
    + destruct (gather_fail b Hb) as (c & e & Hin & Ho & -> & Hmin).
      exists [], b, rest, c, e. simpl. repeat split; auto.
Qed.

Lemma chunk_split {A : Type} (a c k : nat) (l : list A) :
  chunk (a + c) k l = chunk a k l ++ chunk c k (skipn (a * k) l).
Proof.
  revert l; induction a as [|a IH]; intros l; simpl; auto.
  rewrite IH. now rewrite skipn_plus.
Qed.

Lemma app_same_length {A : Type} (x1 x2 y1 y2 : list A) :
  length x1 = length y1 -> x1 ++ x2 = y1 ++ y2 -> x1 = y1 /\ x2 = y2.
Proof.
  revert y1; induction x1 as [|a x1 IH]; intros [|b y1] Hlen H;
    simpl in *; try discriminate; auto.
  inversion H; subst. destruct (IH y1) as [-> ->]; auto.
Qed.

Lemma chunk_decompose {A : Type} (m k : nat) (l : list A) pre b post :
  chunk m k l = pre ++ b :: post ->
  concat pre = firstn (length pre * k) l /\
  b = firstn k (skipn (length pre * k) l).
Proof.
  intros H.
  assert (Hm : m = (length pre + S (length post))%nat).
  { rewrite <- (chunk_length m k l), H, length_app. reflexivity. }
  subst m. rewrite chunk_split in H.
  apply app_same_length in H; [|apply chunk_length].
  destruct H as [Hpre Hb]. simpl in Hb. inversion Hb; subst.
  split; auto. rewrite <- Hpre at 1. apply chunk_concat.
Qed.

Lemma process_batch_all_ok tasks batch_size :
  0 < batch_size ->
  Forall succeeds tasks ->
  exists rs,
    process_batch tasks batch_size = (tasks, Ok rs) /\
    map outcome tasks = map Ok rs.
Proof.
  intros Hk Hall. rewrite process_batch_chunks by assumption.
  set (k := Z.to_nat batch_size).
  assert (Hcat : concat (chunk (ceil_div (length tasks) k) k tasks) = tasks).
  { rewrite chunk_concat. apply firstn_all2.
    apply ceil_div_bounds. unfold k; lia. }
  destruct (run_batches_ok (chunk (ceil_div (length tasks) k) k tasks) [] [])
    as (rs & Hrun & Hm).
  { now rewrite Hcat. }
  rewrite Hcat in *. exists rs. now rewrite Hrun.
Qed.

(** C5: with a positive batch size and tasks that all succeed,
    [process_batch] returns as many results as there are tasks, the
    result at each position being that of the task submitted at that
    position, whenever each task completes. *)
Theorem process_batch_order tasks batch_size :
  0 < batch_size ->
  Forall succeeds tasks ->
  exists rs,
    snd (process_batch tasks batch_size) = Ok rs /\
    length rs = length tasks /\
    forall i t, nth_error tasks i = Some t ->
      exists r, outcome t = Ok r /\ nth_error rs i = Some r.
Proof.
  intros Hk Hall.
  destruct (process_batch_all_ok tasks batch_size Hk Hall) as (rs & Hrun & Hm).
  exists rs. rewrite Hrun. split; [reflexivity|]. split.
  - rewrite <- (length_map Ok rs), <- Hm. now rewrite length_map.
  - intros i t Hi.
    assert (Ho : nth_error (map outcome tasks) i = Some (outcome t))
      by (rewrite nth_error_map, Hi; reflexivity).
    rewrite Hm, nth_error_map in Ho.
    destruct (nth_error rs i) as [r|]; [|discriminate].
    exists r. simpl in Ho. split; congruence.
Qed.

(** C2 (as the code has it): with a positive batch size, when every
    task succeeds every task is started and the complete result list is
    returned; when some task fails, the run ends with the exception of
    the task that fails first in the first batch that holds a failing
    task, no result list is returned, and exactly the tasks of the
    batches up to that one have been started. *)
Theorem process_batch_fail_fast tasks batch_size :
  0 < batch_size ->
  (Forall succeeds tasks ->
   exists rs,
     process_batch tasks batch_size = (tasks, Ok rs) /\
     map outcome tasks = map Ok rs) /\
  (Exists fails tasks ->
   exists (b : nat) c e,
     let k := Z.to_nat batch_size in
     let failing_batch := firstn k (skipn (b * k) tasks) in
     process_batch tasks batch_size
     = (firstn ((b + 1) * k) tasks, Raise e) /\
     Forall succeeds (firstn (b * k) tasks) /\
     In c failing_batch /\ outcome c = Raise e /\
     forall t, In t failing_batch -> fails t ->
               (completes_at c <= completes_at t)%nat).
Proof.
  intros Hk. split; [now apply process_batch_all_ok|].
  intros Hex. rewrite process_batch_chunks by assumption.
  set (k := Z.to_nat batch_size).
  set (m := ceil_div (length tasks) k).
  assert (Hcat : concat (chunk m k tasks) = tasks).
  { rewrite chunk_concat. apply firstn_all2.
    apply ceil_div_bounds. unfold k; lia. }
  destruct (run_batches_fail (chunk m k tasks) [] [])
    as (pre & b & post & c & e & Hsplit & Hpre & Hin & Ho & Hmin & Hrun).
  { now rewrite Hcat. }
  destruct (chunk_decompose _ _ _ _ _ _ Hsplit) as [Hcp Hb].
  exists (length pre), c, e. cbv zeta. rewrite Hrun. simpl app.
  rewrite <- Hb, <- Hcp. repeat split; auto.
  f_equal. rewrite Nat.mul_add_distr_r, firstn_plus, Nat.mul_1_l.
  now rewrite <- Hcp, <- Hb.
Qed.

End TaskProperties.

Lemma process_batch_order_witness :
  exists rs,
    snd (process_batch
           [mkTask 3 (Ok 10); mkTask 1 (Ok 20); mkTask 2 (Ok 30)] 2) = Ok rs /\
    length rs = 3%nat.
Proof.
  destruct (process_batch_order
              [mkTask 3 (Ok 10); mkTask 1 (Ok 20); mkTask 2 (Ok 30)] 2)
    as (rs & H1 & H2 & _).
  - lia.
  - repeat constructor; eexists; reflexivity.
  - exists rs. split; [exact H1 | exact H2].
Defined.

Lemma process_batch_fail_fast_witness :
  exists (b : nat) (c : Task Z) e,
    process_batch
      [mkTask 1 (Ok 10); mkTask 5 (Raise (TaskError 1));
       mkTask 2 (Raise (TaskError 2)); mkTask 0 (Raise (TaskError 3));
       mkTask 0 (Ok 50)] 3
    = (firstn ((b + 1) * 3)
         [mkTask 1 (Ok 10); mkTask 5 (Raise (TaskError 1));
          mkTask 2 (Raise (TaskError 2)); mkTask 0 (Raise (TaskError 3));
          mkTask 0 (Ok 50)], Raise e) /\
    outcome c = Raise e.
Proof.
  destruct (process_batch_fail_fast
              [mkTask 1 (Ok 10); mkTask 5 (Raise (TaskError 1));
               mkTask 2 (Raise (TaskError 2)); mkTask 0 (Raise (TaskError 3));
               mkTask 0 (Ok 50)] 3) as [_ H].
  - lia.
  - destruct H as (b & c & e & H1 & _ & _ & H4 & _).
    + apply Exists_cons_tl, Exists_cons_hd. eexists; reflexivity.
    + exists b, c, e. split; [exact H1 | exact H4].
Defined.

(** What the code does on that run: the second task of the first batch
    fails first, the fourth task is never started. *)
Example process_batch_fail_fast_run :
  process_batch
    [mkTask 1 (Ok 10); mkTask 5 (Raise (TaskError 1));
     mkTask 2 (Raise (TaskError 2)); mkTask 0 (Raise (TaskError 3));
     mkTask 0 (Ok 50)] 3
  = ([mkTask 1 (Ok 10); mkTask 5 (Raise (TaskError 1));
      mkTask 2 (Raise (TaskError 2))], Raise (TaskError 2)).
Proof. reflexivity. Qed.

(** C2 (as stated) fails for batch sizes that are not positive: with a
    negative one no task is started and an empty list is returned although
    no task failed; with zero the run fails although no task failed. *)
Lemma process_batch_nonpositive_counterexample :
  Forall succeeds [mkTask 0 (Ok 7)] /\
  process_batch [mkTask 0 (Ok 7)] (-1) = ([], Ok []) /\
  process_batch [mkTask 0 (Ok 7)] 0
  = ([], Raise (ValueError "range() arg 3 must not be zero")).
Proof.
  repeat split. repeat constructor. eexists; reflexivity.
Qed.

(** ** [flatten_apply] *)

Section FlattenApplyProperties.

Context {A : Type} (nan : A).

Lemma combine_fst_snd {X Y : Type} (l : list (X * Y)) :
  combine (map fst l) (map snd l) = l.
Proof. induction l as [|[x y] l IH]; simpl; congruence. Qed.

Lemma group_add_fresh {B : Type} (label : nat) (v : B) groups :
  ~ In label (map fst groups) ->
  group_add label v groups = groups ++ [(label, [v])].
Proof.
  induction groups as [|[l vs] rest IH]; intros Hfresh; simpl in *; auto.
  destruct (Nat.eqb_spec l label); [tauto|].
  rewrite IH; tauto.
Qed.

Lemma group_add_last {B : Type} (label : nat) (v : B) groups vs :
  ~ In label (map fst groups) ->
  group_add label v (groups ++ [(label, vs)])
  = groups ++ [(label, vs ++ [v])].
Proof.
  induction groups as [|[l ws] rest IH]; intros Hfresh; simpl in *.
  - now rewrite Nat.eqb_refl.
  - destruct (Nat.eqb_spec l label); [tauto|].
    rewrite IH; tauto.
Qed.

Lemma group_row_tail {B : Type} (label : nat) (xs vs : list B) groups :
  ~ In label (map fst groups) ->
  fold_left (fun g lv => group_add (fst lv) (snd lv) g)
            (map (pair label) xs) (groups ++ [(label, vs)])
  = groups ++ [(label, vs ++ xs)].
Proof.
  intros Hfresh. revert vs; induction xs as [|x xs IH]; intros vs; simpl.
  - now rewrite app_nil_r.
  - rewrite group_add_last by assumption. rewrite IH.
    now rewrite <- app_assoc.
Qed.

Lemma group_exploded_row {B : Type} (g : A -> B) (label : nat) (row : list A)
  groups :
  ~ In label (map fst groups) ->
  fold_left (fun acc lv => group_add (fst lv) (snd lv) acc)
            (map (fun lv => (fst lv, g (snd lv))) (explode_row nan label row))
            groups
  = groups ++ [(label, map g (placeholder_row nan row))].
Proof.
  intros Hfresh. destruct row as [|x xs]; simpl.
  - now apply group_add_fresh.
  - rewrite group_add_fresh by assumption.
    rewrite map_map. simpl.
    rewrite <- (map_map g (pair label)).
    now rewrite group_row_tail.
Qed.

Lemma group_exploded_rows {B : Type} (g : A -> B) (rows : list (list A))
  (s : nat) groups :
  (forall l, In l (map fst groups) -> (l < s)%nat) ->
  fold_left (fun acc lv => group_add (fst lv) (snd lv) acc)
            (map (fun lv => (fst lv, g (snd lv)))
                 (flat_map (fun ir => explode_row nan (fst ir) (snd ir))
                           (combine (seq s (length rows)) rows)))
            groups
  = groups ++ combine (seq s (length rows))
                      (map (fun row => map g (placeholder_row nan row)) rows).
Proof.
  revert s groups; induction rows as [|row rows IH]; intros s groups Hlt.
  - simpl. now rewrite app_nil_r.
  - simpl. rewrite map_app, fold_left_app, group_exploded_row.
    2:{ intros Hin. apply Hlt in Hin. lia. }
    rewrite IH.
    + now rewrite <- app_assoc.
    + intros l Hin. rewrite map_app, in_app_iff in Hin. simpl in Hin.
      destruct Hin as [Hin|[<-|[]]]; [apply Hlt in Hin|]; lia.
Qed.

Lemma snd_combine_seq {X : Type} (l : list X) (s : nat) :
  map snd (combine (seq s (length l)) l) = l.
Proof.
  revert s; induction l as [|x l IH]; intros s; simpl; auto.
  now rewrite IH.
Qed.

Lemma explode_row_placeholder (label : nat) (row : list A) :
  explode_row nan label row = map (pair label) (placeholder_row nan row).
Proof. destruct row; reflexivity. Qed.

Lemma map_snd_pair {I X : Type} (i : I) (l : list X) :
  map snd (map (pair i) l) = l.
Proof. induction l; simpl; congruence. Qed.

Lemma explode_cells (rows : list (list A)) :
  map snd (explode nan rows) = flatten (map (placeholder_row nan) rows).
Proof.
  unfold explode, flatten. generalize 0%nat.
  induction rows as [|row rows IH]; intros s; simpl; auto.
  now rewrite map_app, IH, explode_row_placeholder, map_snd_pair.
Qed.

(** Labels that are all new open one group each. *)
Lemma group_fresh_labels {B : Type} (vs : list B) :
  forall (s : nat) (groups : list (nat * list B)),
    (forall l, In l (map fst groups) -> (l < s)%nat) ->
    fold_left (fun acc lv => group_add (fst lv) (snd lv) acc)
              (combine (seq s (length vs)) vs) groups
    = groups ++ combine (seq s (length vs)) (map (fun v => [v]) vs).
Proof.
  induction vs as [|v vs IH]; intros s groups Hlt; simpl.
  - now rewrite app_nil_r.
  - rewrite group_add_fresh by (intros Hin; apply Hlt in Hin; lia).
    rewrite IH.
    + now rewrite <- app_assoc.
    + intros l Hin. rewrite map_app, in_app_iff in Hin. simpl in Hin.
      destruct Hin as [Hin|[<-|[]]]; [apply Hlt in Hin|]; lia.
Qed.

(** A frame without rows takes one row for each value assigned to it. *)
Lemma flatten_apply_grown {B C : Type} (cast : list B -> B -> C)
  (func : list A -> result (list B)) (values : list B) :
  func [] = Ok values ->
  values <> [] ->
  flatten_apply nan cast func [] = Ok (map (fun v => [cast values v]) values).
Proof.
  intros Hfunc Hne. unfold flatten_apply.
  change (explode nan []) with (@nil (nat * A)). cbn [map].
  rewrite Hfunc. cbn [bind].
  assert (Htest : ((length (@nil (nat * A)) =? 0)%nat
                   && negb (length values =? 0)%nat)%bool = true)
    by (destruct values; [congruence|reflexivity]).
  rewrite Htest. f_equal.
  unfold groupby_level0, as_column.
  rewrite <- (length_map (cast values) values).
  rewrite group_fresh_labels by (simpl; tauto). cbn [app].
  rewrite <- (length_map (fun c => [c])).
  rewrite snd_combine_seq. apply map_map.
Qed.

(** A transform that answers, for the flattened cells, with the image of
    each cell under [g] gives every row back cell by cell, as the column
    of all these images stores them, an empty row as the image of the
    marker. *)
Lemma flatten_apply_values {B C : Type} (cast : list B -> B -> C)
  (func : list A -> result (list B)) (g : A -> B) (rows : list (list A)) :
  let values := map g (flatten (map (placeholder_row nan) rows)) in
  func (flatten (map (placeholder_row nan) rows)) = Ok values ->
  flatten_apply nan cast func rows
  = Ok (map (fun row => map (fun x => cast values (g x)) (placeholder_row nan row))
            rows).
Proof.
  intros values Hfunc. unfold flatten_apply. rewrite explode_cells, Hfunc.
  cbn [bind].
  assert (Hlen : length values = length (explode nan rows)).
  { unfold values. rewrite <- explode_cells. now rewrite !length_map. }
  rewrite Hlen, Nat.eqb_refl, andb_negb_r. f_equal.
  set (h := fun x => cast values (g x)).
  assert (Hframe : combine (map fst (explode nan rows)) (as_column cast values)
                   = map (fun lv => (fst lv, h (snd lv))) (explode nan rows)).
  { assert (Hv : as_column cast values = map h (map snd (explode nan rows))).
    { unfold as_column. unfold values at 2.
      now rewrite map_map, explode_cells. }
    rewrite Hv. generalize (explode nan rows). intros df.
    induction df as [|[l v] df IH]; simpl; congruence. }
  rewrite Hframe. unfold groupby_level0, explode.
  rewrite group_exploded_rows by (simpl; tauto).
  simpl app. rewrite <- (length_map (fun row => map h (placeholder_row nan row)) rows).
  apply snd_combine_seq.
Qed.


End FlattenApplyProperties.



(** Rows of integers without an empty row, and rows of strings, come
    back as they are. *)
Example flatten_apply_identity_run :
  flatten_apply CNaN pandas_cast (fun flat => Ok flat)
    [[CObj (VInt 1); CObj (VInt 2); CObj (VInt 3)]; [CObj (VInt 4)]]
  = Ok [[CObj (VInt 1); CObj (VInt 2); CObj (VInt 3)]; [CObj (VInt 4)]] /\
  flatten_apply CNaN pandas_cast (fun flat => Ok flat)
    [[CObj (VStr "a"); CObj VNone]; []; [CObj (VStr "c")]]
  = Ok [[CObj (VStr "a"); CObj VNone]; [CNaN]; [CObj (VStr "c")]].
Proof. split; reflexivity. Qed.

(** No row at all and a transform that answers with a value all the
    same: the value makes a row of its own.  An answer of another length
    than the cells of a frame with rows is refused. *)
Example flatten_apply_length_run :
  flatten_apply CNaN pandas_cast (fun _ => Ok [CObj (VStr "z")]) []
  = Ok [[CObj (VStr "z")]] /\
  flatten_apply CNaN pandas_cast (fun _ => Ok []) [[CObj (VInt 1)]]
  = Raise (ValueError "Length of values (0) does not match length of index (1)").
Proof. split; reflexivity. Qed.

(** ** Equality of Python values *)

Lemma all2_eq {X : Type} (f : X -> X -> bool) (xs : list X) :
  Forall (fun x => forall y, f x y = true <-> x = y) xs ->
  forall ys, all2 f xs ys = true <-> xs = ys.
Proof.
  induction 1 as [|x xs Hx _ IH]; intros [|y ys]; simpl;
    try (split; [discriminate|discriminate]); try tauto.
  rewrite andb_true_iff, Hx, IH. split.
  - intros [-> ->]; reflexivity.
  - intros H; inversion H; auto.
Qed.

Lemma pyval_eqb_eq (a b : pyval) : pyval_eqb a b = true <-> a = b.
Proof.
  revert b; induction a as [|x|x|xs IH|xs IH] using pyval_nested_ind;
    intros [|y|y|ys|ys]; simpl;
    try (split; [discriminate|discriminate]); try tauto.
  - rewrite Z.eqb_eq. split; [congruence | intros H; now inversion H].
  - rewrite String.eqb_eq. split; [congruence | intros H; now inversion H].
  - rewrite (all2_eq pyval_eqb xs IH). split; [congruence | intros H; now inversion H].
  - rewrite (all2_eq pyval_eqb xs IH). split; [congruence | intros H; now inversion H].
Qed.

Lemma pyval_eq_dec (a b : pyval) : {a = b} + {a <> b}.
Proof.
  destruct (pyval_eqb a b) eqn:E.
  - left. now apply pyval_eqb_eq.
  - right. intros H. apply pyval_eqb_eq in H. congruence.
Defined.

(** ** Dictionaries and products *)

Lemma dict_set_fresh {V : Type} (d : dict V) (k : string) (v : V) :
  ~ In k (map fst d) -> dict_set d k v = d ++ [(k, v)].
Proof.
  induction d as [|[k' v'] rest IH]; intros Hfresh; simpl in *; auto.
  destruct (String.eqb_spec k' k); [tauto|].
  rewrite IH; tauto.
Qed.

Lemma dict_of_acc {V : Type} (items acc : list (string * V)) :
  NoDup (map fst (acc ++ items)) ->
  fold_left (fun d kv => dict_set d (fst kv) (snd kv)) items acc = acc ++ items.
Proof.
  revert acc; induction items as [|[k v] items IH]; intros acc Hnd; simpl.
  - now rewrite app_nil_r.
  - rewrite dict_set_fresh.
    + rewrite IH; rewrite <- app_assoc; auto.
    + rewrite map_app in Hnd. simpl in Hnd.
      apply NoDup_remove_2 in Hnd. rewrite in_app_iff in Hnd. tauto.
Qed.

(** Items with pairwise different keys make the dictionary that lists
    them in their order. *)
Lemma dict_of_nodup {V : Type} (items : list (string * V)) :
  NoDup (map fst items) -> dict_of items = items.
Proof. intros H. unfold dict_of. now rewrite dict_of_acc. Qed.

Lemma product_length {V : Type} (lists : list (list V)) :
  length (product lists) = count_product (map (@length V) lists).
Proof.
  induction lists as [|l rest IH]; simpl; auto.
  rewrite <- IH. clear IH.
  induction l as [|x l IHl]; simpl; auto.
  now rewrite length_app, length_map, IHl.
Qed.

Lemma in_product {V : Type} (lists : list (list V)) (combo : list V) :
  In combo (product lists) <-> Forall2 (fun x l => In x l) combo lists.
Proof.
  revert combo; induction lists as [|l rest IH]; intros combo; simpl.
  - split.
    + intros [<-|[]]. constructor.
    + intros H; inversion H; auto.
  - rewrite in_flat_map. split.
    + intros (x & Hx & Hin). apply in_map_iff in Hin.
      destruct Hin as (c & <- & Hc). constructor; auto. now apply IH.
    + intros H. inversion H as [|x l' c rest' Hx Hc]; subst.
      exists x. split; auto. apply in_map; now apply IH.
Qed.

Lemma NoDup_product {V : Type} (lists : list (list V)) :
  Forall (@NoDup V) lists -> NoDup (product lists).
Proof.
  induction 1 as [|l rest Hl _ IH]; simpl.
  - repeat constructor. intros [].
  - induction Hl as [|x l Hx _ IHl]; simpl; [constructor|].
    apply NoDup_app; auto.
    + apply NoDup_map_NoDup_ForallPairs; auto.
      intros a b _ _ Hab. now inversion Hab.
    + intros c Hc Hc'. apply in_map_iff in Hc. destruct Hc as (c0 & <- & _).
      apply in_flat_map in Hc'. destruct Hc' as (y & Hy & Hin).
      apply in_map_iff in Hin. destruct Hin as (c1 & Heq & _).
      inversion Heq; subst. contradiction.
Qed.

Lemma combine_keys {V : Type} (keys : list string) (vals : list V) :
  length keys = length vals -> map fst (combine keys vals) = keys.
Proof.
  revert vals; induction keys as [|k keys IH]; intros [|v vals] H;
    simpl in *; try discriminate; auto.
  f_equal. apply IH. lia.
Qed.

Lemma combine_inj {V : Type} (keys : list string) (a b : list V) :
  length a = length keys -> length b = length keys ->
  combine keys a = combine keys b -> a = b.
Proof.
  revert a b; induction keys as [|k keys IH]; intros [|x a] [|y b] Ha Hb H;
    simpl in *; try discriminate; auto.
  inversion H; subst. f_equal. apply IH; auto.
Qed.

(** ** [make_combinations] *)

Section MakeCombinationsProperties.

Variable list_of_set : list pyval -> list pyval.

(** What the language promises of [list(set(x))] on hashable elements:
    no element twice, and the elements of [x]. *)
Hypothesis list_of_set_nodup :
  forall x, forallb is_hashable x = true -> NoDup (list_of_set x).
Hypothesis list_of_set_in :
  forall x, forallb is_hashable x = true ->
  forall v, In v (list_of_set x) <-> In v x.

Lemma delete_duplicate_hashable (x : list pyval) :
  forallb is_hashable x = true -> delete_duplicate list_of_set x = list_of_set x.
Proof.
  intros H. unfold delete_duplicate.
  replace (existsb (fun elem => negb (is_hashable elem)) x) with false; auto.
  symmetry. apply not_true_is_false. intros Hex.
  apply existsb_exists in Hex. destruct Hex as (e & Hin & He).
  rewrite forallb_forall in H. rewrite (H e Hin) in He. discriminate.
Qed.

Lemma list_of_set_length (x : list pyval) :
  forallb is_hashable x = true ->
  length (list_of_set x) = length (nodup pyval_eq_dec x).
Proof.
  intros H. apply Permutation_length, NoDup_Permutation.
  - now apply list_of_set_nodup.
  - apply NoDup_nodup.
  - intros v. rewrite nodup_In. now apply list_of_set_in.
Qed.

(** The assignments, once the dictionaries built on the way are seen to
    list their items unchanged. *)
Lemma make_combinations_unfold (target_dict : dict pyval) :
  NoDup (map fst target_dict) ->
  hashable_candidates target_dict ->
  make_combinations list_of_set target_dict
  = map (combine (map fst target_dict))
        (product (map (fun kv => list_of_set (as_list (snd kv))) target_dict)).
Proof.
  intros Hnd Hhash. unfold make_combinations.
  rewrite (dict_of_nodup (map _ target_dict))
    by (rewrite map_map; simpl; exact Hnd).
  rewrite (dict_of_nodup (map _ (map _ target_dict)))
    by (rewrite !map_map; simpl; exact Hnd).
  rewrite !map_map. simpl.
  assert (Hd : map (fun x => delete_duplicate list_of_set (as_list (snd x))) target_dict
               = map (fun kv => list_of_set (as_list (snd kv))) target_dict).
  { apply map_ext_in. intros [k v] Hin. simpl.
    apply delete_duplicate_hashable. eapply Hhash; eauto. }
  rewrite Hd. apply map_ext_in. intros combo Hin.
  apply dict_of_nodup. rewrite combine_keys; auto.
  apply in_product, Forall2_length in Hin.
  rewrite !length_map in *. auto.
Qed.

(** C7: for a dictionary whose candidates are all hashable,
    [make_combinations] returns as many assignments as the product of
    the numbers of distinct candidates of the keys, no assignment twice,
    each with exactly the keys of the input in their order and, under
    each key, one of its candidates; and the dictionary binding [a] to
    the candidates 1, 1, 2 gives two assignments, one with 1 and one
    with 2. *)
Theorem make_combinations_spec :
  (forall target_dict : dict pyval,
     NoDup (map fst target_dict) ->
     hashable_candidates target_dict ->
     let out := make_combinations list_of_set target_dict in
     length out
     = count_product
         (map (fun kv => length (nodup pyval_eq_dec (as_list (snd kv))))
              target_dict) /\
     NoDup out /\
     forall assignment, In assignment out ->
       map fst assignment = map fst target_dict /\
       forall k v, In (k, v) assignment ->
         exists candidates,
           In (k, candidates) target_dict /\ In v (as_list candidates)) /\
  (let out := make_combinations list_of_set
                [("a"%string, VList [VInt 1; VInt 1; VInt 2])] in
   length out = 2%nat /\
   In [("a"%string, VInt 1)] out /\ In [("a"%string, VInt 2)] out).
Proof.
  assert (Hgen : forall target_dict : dict pyval,
     NoDup (map fst target_dict) ->
     hashable_candidates target_dict ->
     let out := make_combinations list_of_set target_dict in
     length out
     = count_product
         (map (fun kv => length (nodup pyval_eq_dec (as_list (snd kv))))
              target_dict) /\
     NoDup out /\
     forall assignment, In assignment out ->
       map fst assignment = map fst target_dict /\
       forall k v, In (k, v) assignment ->
         exists candidates,
           In (k, candidates) target_dict /\ In v (as_list candidates)).
  { intros target_dict Hnd Hhash out. unfold out.
    rewrite make_combinations_unfold by assumption.
    set (keys := map fst target_dict).
    set (lists := map (fun kv => list_of_set (as_list (snd kv))) target_dict).
    assert (Hlen : forall combo, In combo (product lists) ->
                                 length combo = length keys).
    { intros combo Hin. apply in_product, Forall2_length in Hin.
      unfold lists, keys in *. rewrite !length_map in *. auto. }
    split; [|split].
    - rewrite length_map, product_length. unfold lists. rewrite map_map.
      f_equal. apply map_ext_in. intros [k v] Hin. simpl.
      apply list_of_set_length. eapply Hhash; eauto.
    - apply NoDup_map_NoDup_ForallPairs.
      + intros a b Ha Hb Heq. eapply combine_inj; eauto.
      + apply NoDup_product. unfold lists. apply Forall_forall.
        intros l Hl. apply in_map_iff in Hl. destruct Hl as ([k v] & <- & Hin).
        apply list_of_set_nodup. eapply Hhash; eauto.
    - intros assignment Hin. apply in_map_iff in Hin.
      destruct Hin as (combo & <- & Hcombo). split.
      + apply combine_keys. symmetry. auto.
      + apply in_product in Hcombo. unfold keys, lists. clear -Hcombo Hhash list_of_set_in.
        revert Hhash. unfold lists in Hcombo.
        revert combo Hcombo.
        induction target_dict as [|[k0 c0] rest IH]; intros combo Hcombo Hhash k v Hkv;
          simpl in *.
        * inversion Hcombo; subst. contradiction.
        * inversion Hcombo as [|x l combo' ls Hx Hrest]; subst. simpl in Hkv.
          destruct Hkv as [Heq|Hkv].
          -- inversion Heq; subst. exists c0. split; auto.
             assert (Hc0 : forallb is_hashable (as_list c0) = true)
               by (eapply Hhash; left; reflexivity).
             now apply (list_of_set_in _ Hc0) in Hx.
          -- destruct (IH combo' Hrest) with (k := k) (v := v)
               as (c & Hc & Hv); auto.
             ++ intros k' v' Hin'. eapply Hhash; right; eauto.
             ++ exists c; auto. }
  split; [exact Hgen|].
  set (td := [("a"%string, VList [VInt 1; VInt 1; VInt 2])]).
  assert (Hnd : NoDup (map fst td)) by (repeat constructor; simpl; tauto).
  assert (Hh : hashable_candidates td).
  { intros k v [Heq|[]]. inversion Heq; subst. reflexivity. }
  destruct (Hgen td Hnd Hh) as (Hlen & _ & _).
  cbv zeta. split; [etransitivity; [exact Hlen | vm_compute; reflexivity]|].
  rewrite make_combinations_unfold by assumption.
  split; apply in_map_iff.
  - exists [VInt 1]. split; [reflexivity|]. apply in_product.
    repeat constructor. apply list_of_set_in; simpl; auto.
  - exists [VInt 2]. split; [reflexivity|]. apply in_product.
    repeat constructor. apply list_of_set_in; simpl; auto.
Qed.

End MakeCombinationsProperties.

Lemma make_combinations_spec_witness :
  length (make_combinations (nodup pyval_eq_dec)
            [("a"%string, VList [VInt 1; VInt 1; VInt 2]);
             ("b"%string, VStr "x")]) = 2%nat /\
  length (make_combinations (nodup pyval_eq_dec)
            [("a"%string, VList [VInt 1; VInt 1; VInt 2])]) = 2%nat.
Proof.
  destruct (make_combinations_spec (nodup pyval_eq_dec)
              (fun x _ => NoDup_nodup pyval_eq_dec x)
              (fun x _ v => nodup_In pyval_eq_dec x v)) as [Hgen Hex].
  split.
  - destruct (Hgen [("a"%string, VList [VInt 1; VInt 1; VInt 2]);
                    ("b"%string, VStr "x")]) as [Hlen _].
    + repeat constructor; simpl; intuition discriminate.
    + intros k v [Heq|[Heq|[]]]; inversion Heq; reflexivity.
    + exact Hlen.
  - exact (proj1 Hex).
Defined.

(** The four assignments of two keys with two candidates each, in the
    order of the product. *)
Example make_combinations_two_keys :
  make_combinations (nodup pyval_eq_dec)
    [("a"%string, VList [VInt 1; VInt 2]); ("b"%string, VList [VInt 1; VInt 2])]
  = [[("a"%string, VInt 1); ("b"%string, VInt 1)];
     [("a"%string, VInt 1); ("b"%string, VInt 2)];
     [("a"%string, VInt 2); ("b"%string, VInt 1)];
     [("a"%string, VInt 2); ("b"%string, VInt 2)]].
Proof. vm_compute. reflexivity. Qed.

(** Candidates that are not all hashable are left as given, duplicates
    included. *)
Example make_combinations_unhashable :
  make_combinations (nodup pyval_eq_dec)
    [("a"%string, VList [VList []; VList []])]
  = [[("a"%string, VList [])]; [("a"%string, VList [])]].
Proof. vm_compute. reflexivity. Qed.

(** ** [fetch_one_content] *)

Lemma getitem_ok (df : DataFrame) (name : string) :
  In name (columns df) ->
  getitem df name = Ok (map (fun row => row name) (rows df)).
Proof.
  intros Hin. unfold getitem.
  replace (existsb (String.eqb name) (columns df)) with true; auto.
  symmetry. apply existsb_exists. exists name. split; auto.
  apply String.eqb_refl.
Qed.

Lemma select_by_mask {X : Type} (f : X -> bool) (l : list X) :
  map fst (filter snd (combine l (map f l))) = filter f l.
Proof.
  induction l as [|x l IH]; simpl; auto.
  destruct (f x); simpl; now rewrite IH.
Qed.

Lemma find_filter {X : Type} (f : X -> bool) (l : list X) :
  find f l = hd_error (filter f l).
Proof.
  induction l as [|x l IH]; simpl; auto. destruct (f x); auto.
Qed.

Lemma filter_nil_iff {X : Type} (f : X -> bool) (l : list X) :
  filter f l = [] <-> forall x, In x l -> f x = false.
Proof.
  induction l as [|x l IH]; simpl.
  - split; auto. intros _ x [].
  - destruct (f x) eqn:E.
    + split; [discriminate|]. intros H. specialize (H x (or_introl eq_refl)).
      congruence.
    + rewrite IH. split.
      * intros H y [<-|Hy]; auto.
      * intros H y Hy. apply H. now right.
Qed.

(** The lookup for a non-empty string, once the [doc_id] column and the
    requested column are known to exist: it is decided by the rows whose
    [doc_id] is the string. *)
Lemma fetch_one_content_lookup (corpus_data : DataFrame) (s column_name : string) :
  In "doc_id"%string (columns corpus_data) ->
  In column_name (columns corpus_data) ->
  s <> EmptyString ->
  fetch_one_content corpus_data (VStr s) column_name
  = match filter (has_doc_id s) (rows corpus_data) with
    | [] => Raise (not_found s)
    | row :: _ => Ok (row column_name)
    end.
Proof.
  intros Hid Hcol Hs. unfold fetch_one_content.
  assert (Hne : existsb (pyval_eqb (VStr s)) [VStr EmptyString; VStr EmptyString]
                = false).
  { simpl. destruct (String.eqb_spec s EmptyString); [contradiction|reflexivity]. }
  rewrite Hne, (getitem_ok _ _ Hid). simpl bind.
  assert (Hsel : select corpus_data
                   (series_eq (map (fun row => row "doc_id"%string)
                                   (rows corpus_data)) (VStr s))
                 = mkDataFrame (columns corpus_data)
                               (filter (has_doc_id s) (rows corpus_data))).
  { unfold select, series_eq. rewrite map_map.
    now rewrite (select_by_mask (has_doc_id s)). }
  rewrite Hsel. unfold empty. simpl rows. simpl columns.
  assert (Hc : (length (columns corpus_data) =? 0)%nat = false).
  { destruct (columns corpus_data); [contradiction|reflexivity]. }
  rewrite Hc, orb_false_r.
  destruct (filter (has_doc_id s) (rows corpus_data)) as [|row rest] eqn:Hf;
    simpl; auto.
  rewrite getitem_ok by exact Hcol. reflexivity.
Qed.

(** C8: for a string identifier and a table that has the [doc_id] column
    and the requested column, [fetch_one_content] returns [None] for the
    empty string; for any other string it fails, with the not-found
    [ValueError] and with no other exception, exactly when no row has the
    string as [doc_id], and otherwise returns the cell of the requested
    column in the first row whose [doc_id] is the string. *)
Theorem fetch_one_content_spec (corpus_data : DataFrame) (s column_name : string) :
  In "doc_id"%string (columns corpus_data) ->
  In column_name (columns corpus_data) ->
  let answer := fetch_one_content corpus_data (VStr s) column_name in
  (s = EmptyString -> answer = Ok VNone) /\
  (s <> EmptyString ->
   (answer = Raise (not_found s) <->
    forall row, In row (rows corpus_data) -> row "doc_id"%string <> VStr s) /\
   (forall e, answer = Raise e -> e = not_found s) /\
   (forall row, find (has_doc_id s) (rows corpus_data) = Some row ->
                answer = Ok (row column_name))).
Proof.
  intros Hid Hcol answer. split.
  - intros ->. reflexivity.
  - intros Hs. unfold answer.
    rewrite (fetch_one_content_lookup _ _ _ Hid Hcol Hs).
    rewrite find_filter.
    destruct (filter (has_doc_id s) (rows corpus_data)) as [|row rest] eqn:Hf.
    + repeat split.
      * intros _ r Hr Heq.
        apply filter_nil_iff with (x := r) in Hf; auto.
        unfold has_doc_id in Hf. rewrite Heq in Hf.
        assert (pyval_eqb (VStr s) (VStr s) = true) by now apply pyval_eqb_eq.
        congruence.
      * intros e He. congruence.
      * simpl. discriminate.
    + assert (Hrow : In row (rows corpus_data) /\ has_doc_id s row = true).
      { apply filter_In. rewrite Hf. now left. }
      repeat split.
      * discriminate.
      * intros Hnone. exfalso. destruct Hrow as [Hin Hm].
        apply (Hnone row Hin). now apply pyval_eqb_eq.
      * intros e He. discriminate.
      * simpl. intros r Hr. congruence.
Qed.

Lemma fetch_one_content_spec_witness :
  fetch_one_content sample_corpus (VStr "d2") "contents" = Ok (VStr "second") /\
  fetch_one_content sample_corpus (VStr EmptyString) "contents" = Ok VNone.
Proof.
  split.
  - refine (proj2 (proj2 (proj2 (fetch_one_content_spec sample_corpus "d2" "contents"
                                   _ _) _)) _ eq_refl).
    + simpl; auto.
    + simpl; auto.
    + discriminate.
  - refine (proj1 (fetch_one_content_spec sample_corpus EmptyString "contents" _ _)
                  eq_refl); simpl; auto.
Defined.

Example fetch_one_content_missing :
  fetch_one_content sample_corpus (VStr "d9") "contents"
  = Raise (ValueError "doc_id: d9 not found in corpus_data.").
Proof. reflexivity. Qed.

(** C10: an identifier that is not a string gives [None], whatever the
    table is, even one without a [doc_id] column: the table is not read
    and nothing is raised. *)
Theorem fetch_one_content_non_string (corpus_data : DataFrame) (id_ : pyval)
  (column_name : string) :
  is_str id_ = false ->
  fetch_one_content corpus_data id_ column_name = Ok VNone.
Proof. destruct id_; simpl; intros H; try discriminate; reflexivity. Qed.

Lemma fetch_one_content_non_string_witness :
  fetch_one_content (mkDataFrame [] []) VNone "contents" = Ok VNone /\
  fetch_one_content sample_corpus (VInt 7) "missing" = Ok VNone.
Proof.
  split.
  - apply (fetch_one_content_non_string (mkDataFrame [] []) VNone). reflexivity.
  - apply (fetch_one_content_non_string sample_corpus (VInt 7)). reflexivity.
Defined.

(** ** [fetch_contents] *)

Lemma map_result_ok {X : Type} (f : X -> result pyval) (l : list X) :
  (forall x, In x l -> exists v, f x = Ok v) ->
  map_result f l = Ok (map (fun x => value_or_none (f x)) l).
Proof.
  induction l as [|x l IH]; intros Hall; simpl; auto.
  destruct (Hall x (or_introl eq_refl)) as [v Hv].
  rewrite Hv, IH by (intros y Hy; apply Hall; now right). reflexivity.
Qed.

Lemma Forall2_value_or_none {X C : Type} (f : X -> result pyval)
  (h : pyval -> C) (l : list X) :
  (forall x, In x l -> exists v, f x = Ok v) ->
  Forall2 (fun x c => exists v, f x = Ok v /\ c = h v) l
          (map (fun x => h (value_or_none (f x))) l).
Proof.
  induction l as [|x l IH]; intros Hall; simpl; constructor.
  - destruct (Hall x (or_introl eq_refl)) as [v Hv]. exists v.
    now rewrite Hv.
  - apply IH. intros y Hy. apply Hall. now right.
Qed.

Lemma in_placeholder_rows (nan : pyval) (ids : list (list pyval)) (x : pyval) :
  In x (flatten (map (placeholder_row nan) ids)) -> x = nan \/ In x (flatten ids).
Proof.
  unfold flatten.
  induction ids as [|row ids IH]; intros Hin; simpl in *; [contradiction|].
  rewrite in_app_iff in Hin. rewrite in_app_iff.
  destruct Hin as [Hin|Hin].
  - destruct row as [|y row]; simpl in Hin.
    + left. destruct Hin as [<-|[]]. reflexivity.
    + right. left. exact Hin.
  - destruct (IH Hin); auto.
Qed.



(** Values that are strings or [None] make a column of objects, which
    gives every one of them back as it is. *)
Lemma pandas_cast_obj_text (values : list pyval) (v : pyval) :
  Forall (fun x => x = VNone \/ is_str x = true) values ->
  pandas_cast_obj values v = CObj v.
Proof.
  intros Htext. unfold pandas_cast_obj, pandas_cast, infer_dtype.
  assert (Hint : existsb is_int (map CObj values) = false).
  { induction Htext as [|x values [->|Hx] _ IH]; simpl; auto.
    destruct x; try discriminate. exact IH. }
  assert (Hfloat : existsb is_float (map CObj values) = false).
  { clear. induction values as [|x values IH]; simpl; auto. }
  rewrite Hfloat, Hint, andb_false_r. simpl.
  now destruct (existsb is_object (map CObj values)).
Qed.

(** Contents that are strings come back as they are, with [None] for
    the row without identifiers; contents that are numbers come back as
    floats, with [NaN] in the place of that [None]. *)
Example fetch_contents_run :
  fetch_contents VNone pandas_cast_obj sample_corpus
    [[VStr "d2"; VStr "d1"]; []; [VStr EmptyString]] "contents"
  = Ok [[CObj (VStr "second"); CObj (VStr "first")]; [CObj VNone]; [CObj VNone]] /\
  fetch_contents VNone pandas_cast_obj numeric_corpus
    [[VStr "a"]; []; [VStr "b"]] "contents"
  = Ok [[CFloat 5 0]; [CNaN]; [CFloat 6 0]].
Proof. split; reflexivity. Qed.

(** ** [embedding_query_content] *)

Section EmbeddingProperties.

Context {Vec : Type}.
Variable encoding_for_model : string -> result Tokenizer.

Lemma openai_truncate_by_token_length texts limit name texts' :
  openai_truncate_by_token encoding_for_model texts limit name = Ok texts' ->
  length texts' = length texts.
Proof.
  unfold openai_truncate_by_token.
  destruct (encoding_for_model name); simpl; intros H; inversion H.
  apply length_map.
Qed.

Lemma truncate_inputs_length (m : EmbeddingModel Vec) queries flat limit :
  (is_openai m = true ->
   exists tokenizer, encoding_for_model (model_name m) = Ok tokenizer) ->
  exists queries' flat',
    truncate_inputs encoding_for_model (Some m) queries flat limit
    = Ok (queries', flat') /\
    length queries' = length queries /\ length flat' = length flat.
Proof.
  intros Htok. unfold truncate_inputs.
  destruct (is_openai m).
  - destruct (Htok eq_refl) as [tokenizer Ht].
    unfold openai_truncate_by_token. rewrite Ht. simpl.
    do 2 eexists. split; [reflexivity|]. now rewrite !length_map.
  - do 2 eexists. split; [reflexivity|]. auto.
Qed.

Lemma reconstruct_loop_shape {X Y : Type} (rs : list (list Y)) :
  forall pre flat : list X,
    length flat = length (concat rs) ->
    map (@length X) (reconstruct_loop (pre ++ flat) (map len rs) [] (len pre))
    = map (@length Y) rs /\
    concat (reconstruct_loop (pre ++ flat) (map len rs) [] (len pre)) = flat.
Proof.
  induction rs as [|r rs IH]; intros pre flat Hlen.
  - destruct flat; [auto|discriminate].
  - cbn [map concat] in *. rewrite reconstruct_loop_cons. cbn [map concat].
    rewrite length_app in Hlen.
    assert (Hs : slice (pre ++ flat) (len pre) (len pre + len r)
                 = firstn (length r) flat).
    { rewrite slice_nonneg by (unfold len; lia). unfold len.
      rewrite !Nat2Z.id. rewrite skipn_app, skipn_all, Nat.sub_diag.
      reflexivity. }
    rewrite Hs.
    assert (Hnext : reconstruct_loop (pre ++ flat) (map len rs) []
                      (len pre + len r)
                    = reconstruct_loop
                        ((pre ++ firstn (length r) flat) ++ skipn (length r) flat)
                        (map len rs) []
                        (len (pre ++ firstn (length r) flat))).
    { f_equal.
      - now rewrite <- app_assoc, firstn_skipn.
      - unfold len. rewrite length_app, length_firstn. lia. }
    rewrite Hnext.
    destruct (IH (pre ++ firstn (length r) flat) (skipn (length r) flat))
      as [IH1 IH2].
    { rewrite length_skipn. lia. }
    rewrite IH1, IH2. split.
    + f_equal. rewrite length_firstn. lia.
    + apply firstn_skipn.
Qed.

Lemma reconstruct_list_shape {X Y : Type} (flat : list X) (rs : list (list Y)) :
  length flat = length (flatten rs) ->
  exists out,
    reconstruct_list flat (row_lengths rs) = Ok out /\
    map (@length X) out = map (@length Y) rs /\
    flatten out = flat.
Proof.
  intros Hlen. unfold reconstruct_list. eexists. split; [reflexivity|].
  apply (reconstruct_loop_shape rs [] flat Hlen).
Qed.


End EmbeddingProperties.



(** A model that is no OpenAI model is not asked for a tokenizer; an
    OpenAI model with a known name embeds the texts as truncated. *)
Example embedding_query_content_run :
  embedding_query_content no_tokenizer ["q1"%string; "q2"%string]
    [["a"%string; "bb"%string; "ccc"%string]; []; ["d"%string; "ee"%string]]
    (Some length_model) 128
  = Ok ([2; 2]%nat, [[1; 2; 3]; []; [1; 2]]%nat) /\
  embedding_query_content (fun _ => Ok unit_tokenizer) ["q1"%string; "q2"%string]
    [["a"%string; "bb"%string; "ccc"%string]; []; ["d"%string; "ee"%string]]
    (Some openai_model) 128
  = Ok ([2; 2]%nat, [[1; 2; 3]; []; [1; 2]]%nat).
Proof. split; reflexivity. Qed.

(** Without a model the call fails when it sets the batch size. *)
Example embedding_query_content_no_model :
  embedding_query_content (Vec := nat) no_tokenizer ["q"%string] [["a"%string]]
    None 128
  = Raise (AttributeError "'NoneType' object has no attribute 'embed_batch_size'").
Proof. reflexivity. Qed.


(* ================================================================= *)
(** * Part III: further functions of [util.py] *)
(* ================================================================= *)

(** ** Lookup and update of dictionaries *)

Lemma dict_get_set_same {V : Type} (d : dict V) (k : string) (v : V) :
  dict_get (dict_set d k v) k = Some v.
Proof.
  induction d as [|[k' v'] rest IH]; simpl.
  - now rewrite String.eqb_refl.
  - destruct (String.eqb_spec k' k) as [->|Hne]; simpl.
    + now rewrite String.eqb_refl.
    + destruct (String.eqb_spec k' k); [contradiction|exact IH].
Qed.

Lemma dict_get_set_other {V : Type} (d : dict V) (k k' : string) (v : V) :
  k' <> k -> dict_get (dict_set d k v) k' = dict_get d k'.
Proof.
  intros Hne. induction d as [|[k0 v0] rest IH]; simpl.
  - destruct (String.eqb_spec k k'); [congruence|reflexivity].
  - destruct (String.eqb_spec k0 k) as [->|Hk]; simpl.
    + destruct (String.eqb_spec k k'); [congruence|reflexivity].
    + now rewrite IH.
Qed.

Lemma dict_contains_get {V : Type} (d : dict V) (k : string) :
  dict_contains d k = true <-> exists v, dict_get d k = Some v.
Proof.
  unfold dict_contains. induction d as [|[k' v'] rest IH]; simpl.
  - split; [discriminate | intros [v Hv]; discriminate].
  - destruct (String.eqb_spec k' k); simpl.
    + split; eauto.
    + exact IH.
Qed.

Lemma dict_contains_keys {V : Type} (d : dict V) (k : string) :
  dict_contains d k = true <-> In k (map fst d).
Proof.
  unfold dict_contains. rewrite existsb_exists, in_map_iff. split.
  - intros ([k' v] & Hin & Heq). simpl in Heq. apply String.eqb_eq in Heq.
    subst. now exists (k, v).
  - intros ([k' v] & Heq & Hin). simpl in Heq. subst.
    exists (k, v). split; auto. apply String.eqb_refl.
Qed.

Lemma dict_set_keys_present {V : Type} (d : dict V) (k : string) (v : V) :
  In k (map fst d) -> map fst (dict_set d k v) = map fst d.
Proof.
  induction d as [|[k' v'] rest IH]; simpl; [contradiction|].
  intros Hin. destruct (String.eqb_spec k' k) as [->|Hne]; simpl; auto.
  f_equal. apply IH. destruct Hin; [contradiction|assumption].
Qed.

Lemma dict_set_keys_absent {V : Type} (d : dict V) (k : string) (v : V) :
  ~ In k (map fst d) -> map fst (dict_set d k v) = map fst d ++ [k].
Proof.
  intros H. rewrite dict_set_fresh by assumption.
  now rewrite map_app.
Qed.

(** ** [replace_value_in_dict] *)

(** X6: [replace_value_in_dict] never adds or moves a key: the keys of the
    result are those of the input in their order; the named key is bound
    to the new value exactly when the input has it, and every other key
    keeps its value. *)
Theorem replace_value_in_dict_spec {V : Type} (target_dict : dict V)
  (key : string) (replace_value : V) :
  let replaced := replace_value_in_dict target_dict key replace_value in
  map fst replaced = map fst target_dict /\
  dict_get replaced key
  = (if dict_contains target_dict key then Some replace_value else None) /\
  (forall k, k <> key -> dict_get replaced k = dict_get target_dict k) /\
  (dict_contains target_dict key = false -> replaced = target_dict).
Proof.
  unfold replace_value_in_dict. cbv zeta.
  destruct (dict_contains target_dict key) eqn:Hc; simpl.
  - split; [|split; [|split]].
    + apply dict_set_keys_present. now apply dict_contains_keys.
    + apply dict_get_set_same.
    + intros k Hk. now apply dict_get_set_other.
    + discriminate.
  - split; [|split; [|split]]; auto.
    destruct (dict_get target_dict key) eqn:Hg; auto.
    assert (dict_contains target_dict key = true)
      by (apply dict_contains_get; eauto).
    congruence.
Qed.

Lemma replace_value_in_dict_spec_witness :
  replace_value_in_dict [("a"%string, 1); ("b"%string, 2)] "c" 9
  = [("a"%string, 1); ("b"%string, 2)].
Proof.
  apply (replace_value_in_dict_spec [("a"%string, 1); ("b"%string, 2)] "c" 9).
  reflexivity.
Defined.

(** ** [filter_dict_keys] *)

Lemma filter_dict_keys_loop_ok {V : Type} (dict_ : dict V) (keys : list string) :
  forall acc,
    Forall (fun k => dict_contains dict_ k = true) keys ->
    NoDup (map fst acc) ->
    exists r,
      filter_dict_keys_loop dict_ keys acc = Ok r /\
      NoDup (map fst r) /\
      (forall k, In k (map fst r) <-> In k (map fst acc) \/ In k keys) /\
      (forall k, In k keys -> dict_get r k = dict_get dict_ k) /\
      (forall k, ~ In k keys -> dict_get r k = dict_get acc k).
Proof.
  induction keys as [|key rest IH]; intros acc Hall Hnd; simpl.
  - exists acc. repeat split; auto; try tauto; intros k [].
  - inversion Hall as [|? ? Hkey Hrest]; subst.
    apply dict_contains_get in Hkey. destruct Hkey as [v Hv]. rewrite Hv.
    assert (Hkeys : (In key (map fst acc) /\
                     map fst (dict_set acc key v) = map fst acc) \/
                    (~ In key (map fst acc) /\
                     map fst (dict_set acc key v) = map fst acc ++ [key])).
    { destruct (in_dec string_dec key (map fst acc)) as [Hin|Hout].
      - left. split; auto. now apply dict_set_keys_present.
      - right. split; auto. now apply dict_set_keys_absent. }
    destruct (IH (dict_set acc key v) Hrest) as (r & Hr & Hrnd & Hrk & Hin & Hout).
    { destruct Hkeys as [[_ ->]|[Hfresh ->]]; auto.
      apply NoDup_app; auto.
      - repeat constructor. intros [].
      - intros k Hk [<-|[]]. contradiction. }
    exists r. split; [exact Hr|]. split; [exact Hrnd|]. split; [|split].
    + intros k. rewrite Hrk.
      destruct Hkeys as [[Hpresent ->]|[_ ->]].
      * split; [tauto|]. intros [H|[<-|H]]; auto.
      * rewrite in_app_iff. simpl. tauto.
    + intros k [<-|Hk].
      * destruct (in_dec string_dec key rest) as [Hk|Hk]; auto.
        rewrite Hout by assumption. now rewrite dict_get_set_same.
      * now apply Hin.
    + intros k Hk.
      rewrite Hout by tauto.
      apply dict_get_set_other. intros ->. apply Hk. now left.
Qed.

(** X5: [filter_dict_keys] returns exactly when the dictionary has every
    requested key: the result then has the requested keys and no other,
    none twice, each with the value the dictionary has for it.  Otherwise
    it raises [KeyError] naming the first requested key that is missing. *)
Theorem filter_dict_keys_spec {V : Type} (dict_ : dict V) (keys : list string) :
  (Forall (fun k => dict_contains dict_ k = true) keys ->
   exists r,
     filter_dict_keys dict_ keys = Ok r /\
     NoDup (map fst r) /\
     (forall k, In k (map fst r) <-> In k keys) /\
     (forall k, In k keys -> dict_get r k = dict_get dict_ k)) /\
  (forall found key rest,
     keys = found ++ key :: rest ->
     Forall (fun k => dict_contains dict_ k = true) found ->
     dict_contains dict_ key = false ->
     filter_dict_keys dict_ keys = Raise (key_not_found key)).
Proof.
  split.
  - intros Hall.
    destruct (filter_dict_keys_loop_ok dict_ keys [] Hall (NoDup_nil _))
      as (r & Hr & Hnd & Hk & Hin & _).
    exists r. repeat split; auto.
    + intros H. apply Hk in H. destruct H as [[]|H]; exact H.
    + intros H. apply Hk. now right.
  - intros found key rest -> Hfound Hmissing. unfold filter_dict_keys.
    generalize (@nil (string * V)).
    induction Hfound as [|k found Hk _ IH]; intros acc; simpl.
    + destruct (dict_get dict_ key) eqn:Hg; auto.
      assert (dict_contains dict_ key = true)
        by (apply dict_contains_get; eauto).
      congruence.
    + apply dict_contains_get in Hk. destruct Hk as [v ->]. apply IH.
Qed.

Lemma filter_dict_keys_spec_witness :
  filter_dict_keys [("a"%string, 1); ("b"%string, 2)] ["b"%string; "z"%string; "a"%string]
  = Raise (key_not_found "z").
Proof.
  apply (proj2 (filter_dict_keys_spec [("a"%string, 1); ("b"%string, 2)]
                  ["b"%string; "z"%string; "a"%string])
               ["b"%string] "z"%string ["a"%string]).
  - reflexivity.
  - repeat constructor.
  - reflexivity.
Defined.

(** ** [sort_by_scores] *)

Section SortedProperties.

Context {X K : Type} (key : X -> K) (lt : K -> K -> bool).

(** [x] may stand before [y] in increasing order: [y] is not below [x]. *)
Let increasing (x y : X) : Prop := lt (key y) (key x) = false.
Let decreasing (x y : X) : Prop := lt (key x) (key y) = false.

Lemma insert_sorted_perm (x : X) (l : list X) :
  Permutation (insert_sorted key lt x l) (x :: l).
Proof.
  induction l as [|y ys IH]; simpl; auto.
  destruct (lt (key y) (key x)); auto.
  rewrite IH. apply perm_swap.
Qed.

Lemma stable_sort_perm (l : list X) : Permutation (stable_sort key lt l) l.
Proof.
  induction l as [|x xs IH]; simpl; auto.
  rewrite insert_sorted_perm. now constructor.
Qed.

Lemma sorted_perm (l : list X) (reverse : bool) :
  Permutation (sorted key lt l reverse) l.
Proof.
  unfold sorted. destruct reverse.
  - rewrite <- Permutation_rev, stable_sort_perm. symmetry. apply Permutation_rev.
  - apply stable_sort_perm.
Qed.

Hypothesis lt_asym : forall a b, lt a b = true -> lt b a = false.

Lemma insert_sorted_sorted (x : X) (l : list X) :
  Sorted increasing l -> Sorted increasing (insert_sorted key lt x l).
Proof.
  induction 1 as [|y ys Hs IH Hhd]; simpl.
  - repeat constructor.
  - destruct (lt (key y) (key x)) eqn:Hyx.
    + constructor; auto.
      destruct ys as [|z zs]; simpl.
      * constructor. unfold increasing. now apply lt_asym.
      * destruct (lt (key z) (key x)).
        -- constructor. now inversion Hhd.
        -- constructor. unfold increasing. now apply lt_asym.
    + repeat constructor; auto.
Qed.

Lemma stable_sort_sorted (l : list X) : Sorted increasing (stable_sort key lt l).
Proof.
  induction l as [|x xs IH]; simpl; [constructor|].
  now apply insert_sorted_sorted.
Qed.

Lemma Sorted_snoc {Y : Type} (R : Y -> Y -> Prop) (l : list Y) (a : Y) :
  Sorted R l -> (forall b, hd_error (rev l) = Some b -> R b a) ->
  Sorted R (l ++ [a]).
Proof.
  induction 1 as [|y ys Hs IH Hhd]; intros Hlast; simpl.
  - repeat constructor.
  - constructor.
    + apply IH. intros b Hb. apply Hlast. simpl.
      destruct (rev ys) as [|c cs]; [discriminate|exact Hb].
    + destruct ys as [|z zs]; simpl.
      * constructor. apply Hlast. reflexivity.
      * constructor. now inversion Hhd.
Qed.

Lemma Sorted_rev_flip {Y : Type} (R : Y -> Y -> Prop) (l : list Y) :
  Sorted R l -> Sorted (fun a b => R b a) (rev l).
Proof.
  induction 1 as [|y ys Hs IH Hhd]; simpl; [constructor|].
  apply Sorted_snoc; auto.
  rewrite rev_involutive. intros b Hb.
  destruct ys as [|z zs]; [discriminate|].
  simpl in Hb. inversion Hb; subst. now inversion Hhd.
Qed.

Lemma sorted_in_order (l : list X) (reverse : bool) :
  Sorted (if reverse then decreasing else increasing)
         (sorted key lt l reverse).
Proof.
  unfold sorted. destruct reverse.
  - apply (Sorted_rev_flip increasing). apply stable_sort_sorted.
  - apply stable_sort_sorted.
Qed.

End SortedProperties.

Lemma Sorted_map {Y Z : Type} (f : Y -> Z) (R : Z -> Z -> Prop) (l : list Y) :
  Sorted (fun a b => R (f a) (f b)) l -> Sorted R (map f l).
Proof.
  induction 1 as [|y ys Hs IH Hhd]; simpl; constructor; auto.
  destruct Hhd; simpl; constructor; auto.
Qed.

Lemma zip3_unzip {C I S : Type} (l : list (C * I * S)) :
  zip3 (map (fun x => fst (fst x)) l) (map (fun x => snd (fst x)) l)
       (map (fun x => snd x) l) = l.
Proof.
  induction l as [|[[c i] s] l IH]; simpl; congruence.
Qed.

(** X4: [sort_by_scores] on a row whose shortest list is empty raises
    [ValueError].  On any other row it returns three lists of one length,
    the triples of which are the triples of the row (content, id and score
    of a position stay together, positions beyond the shortest list are
    left out) arranged so that the scores never increase for [reverse]
    and never decrease without; this for a [<] that orders the scores: it
    never holds both ways, and a score neither below nor above a second,
    which is neither below nor above a third, is neither below nor above
    the third (numbers other than NaN are so). *)
Theorem sort_by_scores_spec {C I S : Type} (lt : S -> S -> bool)
  (row : ScoredRow C I S) (reverse : bool) :
  (forall a b, lt a b = true -> lt b a = false) ->
  (forall a b c, lt a b = false -> lt b c = false -> lt a c = false) ->
  let zipped := zip3 (row_contents row) (row_ids row) (row_scores row) in
  (zipped = [] ->
   exists msg, sort_by_scores lt row reverse = Raise (ValueError msg)) /\
  (zipped <> [] ->
   exists cs ids ss,
     sort_by_scores lt row reverse = Ok (cs, ids, ss) /\
     Permutation (zip3 cs ids ss) zipped /\
     length cs = length zipped /\
     length ids = length zipped /\
     length ss = length zipped /\
     Sorted (fun a b => if reverse then lt a b = false else lt b a = false) ss).
Proof.
  intros Hasym _ zipped. unfold sort_by_scores. fold zipped.
  pose proof (sorted_perm (fun x : C * I * S => snd x) lt zipped reverse) as Hperm.
  pose proof (sorted_in_order (fun x : C * I * S => snd x) lt Hasym zipped reverse)
    as Hsorted.
  set (results := sorted (fun x : C * I * S => snd x) lt zipped reverse) in *.
  split.
  - intros Hnil. rewrite Hnil in Hperm.
    apply Permutation_sym, Permutation_nil in Hperm.
    rewrite Hperm. eauto.
  - intros Hne. destruct results as [|r rs] eqn:Hres.
    + apply Permutation_nil in Hperm. contradiction.
    + rewrite <- Hres in *. do 3 eexists. split; [reflexivity|].
      rewrite zip3_unzip, !length_map.
      pose proof (Permutation_length Hperm) as Hlen.
      repeat split; auto.
      apply Sorted_map. destruct reverse; exact Hsorted.
Qed.

Lemma sort_by_scores_spec_witness :
  exists cs ids ss,
    sort_by_scores Z.ltb
      (mkScoredRow ["a"%string; "b"%string; "c"%string] [1; 2; 3] [5; 9; 5])
      true = Ok (cs, ids, ss) /\
    length ss = 3%nat.
Proof.
  destruct (sort_by_scores_spec Z.ltb
              (mkScoredRow ["a"%string; "b"%string; "c"%string] [1; 2; 3] [5; 9; 5])
              true) as [_ H].
  - intros a b Hab. apply Z.ltb_lt in Hab. apply Z.ltb_ge. lia.
  - intros a b c Hab Hbc. apply Z.ltb_ge in Hab, Hbc. apply Z.ltb_ge. lia.
  - destruct H as (cs & ids & ss & H1 & _ & _ & _ & H5 & _).
    + discriminate.
    + exists cs, ids, ss. split; [exact H1 | exact H5].
Defined.

Example sort_by_scores_run :
  sort_by_scores Z.ltb
    (mkScoredRow ["a"%string; "b"%string; "c"%string] [1; 2; 3] [5; 9; 5]) true
  = Ok (["b"%string; "a"%string; "c"%string], [2; 1; 3], [9; 5; 5]).
Proof. reflexivity. Qed.

(** ** [split_dataframe] *)

Lemma range_to_nat (n : Z) :
  range_to n = map Z.of_nat (seq 0 (Z.to_nat n)).
Proof.
  unfold range_to, range_length. simpl.
  destruct (0 <? n) eqn:E.
  - apply Z.ltb_lt in E. rewrite Z.sub_0_r, Z.div_1_r.
    do 2 f_equal. lia.
  - apply Z.ltb_ge in E. now replace (Z.to_nat n) with 0%nat by lia.
Qed.

Lemma num_chunks_pos (n k : Z) :
  0 <= n -> 0 < k ->
  Z.to_nat (if negb (n mod k =? 0) then n / k + 1 else n / k)
  = ceil_div (Z.to_nat n) (Z.to_nat k).
Proof.
  intros Hn Hk. unfold ceil_div.
  pose proof (Z.div_mod n k ltac:(lia)) as Hdm.
  pose proof (Z.mod_pos_bound n k Hk) as Hr.
  assert (Hq : 0 <= n / k) by (apply Z.div_pos; lia).
  set (q := n / k) in *. set (r := n mod k) in *.
  destruct (r =? 0) eqn:E; simpl.
  - apply Z.eqb_eq in E.
    apply Nat.div_unique with (r := (Z.to_nat k - 1)%nat); [lia|].
    apply Nat2Z.inj.
    rewrite Nat2Z.inj_add, Nat2Z.inj_mul, !Nat2Z.inj_sub by lia.
    rewrite Nat2Z.inj_add, !Z2Nat.id by lia.
    change (Z.of_nat 1) with 1. lia.
  - apply Z.eqb_neq in E.
    apply Nat.div_unique with (r := (Z.to_nat r - 1)%nat); [lia|].
    apply Nat2Z.inj.
    rewrite Nat2Z.inj_add, Nat2Z.inj_mul, !Nat2Z.inj_sub by lia.
    rewrite Nat2Z.inj_add, !Z2Nat.id by lia.
    change (Z.of_nat 1) with 1. lia.
Qed.

Lemma num_chunks_neg (n k : Z) :
  0 <= n -> k < 0 ->
  (if negb (n mod k =? 0) then n / k + 1 else n / k) <= 0.
Proof.
  intros Hn Hk.
  pose proof (Z.div_mod n k ltac:(lia)) as Hdm.
  pose proof (Z.mod_neg_bound n k Hk) as Hr.
  set (q := n / k) in *. set (r := n mod k) in *.
  destruct (r =? 0) eqn:E; simpl.
  - apply Z.eqb_eq in E. nia.
  - apply Z.eqb_neq in E. nia.
Qed.

(** X7: [split_dataframe] cuts the rows of a frame as [make_batch] cuts a
    list: for every chunk size other than zero the two return the same
    chunks (none for a negative size); for zero both raise, the one
    [ZeroDivisionError], the other the [ValueError] of [range]. *)
Theorem split_dataframe_make_batch {A : Type} (df : list A) (chunk_size : Z) :
  match split_dataframe df chunk_size with
  | inr chunks => chunk_size <> 0 /\ make_batch df chunk_size = Ok chunks
  | inl ZeroDivisionError =>
      chunk_size = 0 /\ exists msg, make_batch df chunk_size = Raise (ValueError msg)
  end.
Proof.
  unfold split_dataframe.
  destruct (Z.eqb_spec chunk_size 0) as [->|Hne].
  - split; auto. eexists; reflexivity.
  - split; auto.
    destruct (Z_lt_ge_dec chunk_size 0) as [Hneg|Hpos].
    + unfold make_batch. rewrite range_neg by (unfold len; lia). simpl.
      rewrite range_to_nat.
      pose proof (num_chunks_neg (len df) chunk_size ltac:(unfold len; lia) Hneg)
        as Hnum.
      replace (Z.to_nat _) with 0%nat by lia. reflexivity.
    + assert (Hk : 0 < chunk_size) by lia.
      rewrite make_batch_pos by assumption. f_equal.
      rewrite range_to_nat, num_chunks_pos by (unfold len; lia).
      unfold len. rewrite Nat2Z.id, map_map, chunk_as_map.
      apply map_ext. intros i.
      replace ((Z.of_nat i + 1) * chunk_size)
        with (Z.of_nat i * chunk_size + chunk_size) by lia.
      rewrite slice_nonneg by lia. f_equal. f_equal.
      rewrite Z2Nat.inj_mul, Nat2Z.id by lia. reflexivity.
Qed.

Example split_dataframe_run :
  split_dataframe [1; 2; 3; 4; 5] 2 = inr [[1; 2]; [3; 4]; [5]] /\
  split_dataframe [1; 2; 3; 4; 5] (-2) = inr [] /\
  split_dataframe [1; 2; 3; 4; 5] 0 = inl ZeroDivisionError.
Proof. repeat split. Qed.

(** ** The shape of [flatten_apply] and of [explode] *)

Lemma row_size_placeholder {A : Type} (nan : A) (row : list A) :
  length (placeholder_row nan row) = Nat.max 1 (length row).
Proof. destruct row; reflexivity. Qed.

Lemma map_fst_pair {I A : Type} (i : I) (l : list A) :
  map fst (map (pair i) l) = repeat i (length l).
Proof. induction l; simpl; congruence. Qed.

Lemma combine_repeat {I B : Type} (i : I) (vs : list B) :
  combine (repeat i (length vs)) vs = map (pair i) vs.
Proof. induction vs; simpl; congruence. Qed.

Lemma combine_app_cut {I B : Type} (l1 l2 : list I) (vs : list B) :
  combine (l1 ++ l2) vs
  = combine l1 (firstn (length l1) vs) ++ combine l2 (skipn (length l1) vs).
Proof.
  revert vs; induction l1 as [|x l1 IH]; intros [|v vs]; simpl; auto.
  - now destruct l2.
  - now rewrite IH.
Qed.

Lemma cut_by_concat {B : Type} (sizes : list nat) (values : list B) :
  length values = list_sum sizes ->
  concat (cut_by sizes values) = values /\
  map (@length B) (cut_by sizes values) = sizes.
Proof.
  revert values; induction sizes as [|n rest IH]; intros values Hlen; simpl in *.
  - destruct values; [auto|discriminate].
  - destruct (IH (skipn n values)) as [IHc IHl].
    { rewrite length_skipn. lia. }
    rewrite IHc, IHl, firstn_skipn, length_firstn. split; auto.
    f_equal. lia.
Qed.

Section FlattenApplyShape.

Context {A B C : Type} (nan : A) (cast : list B -> B -> C).

Let size (row : list A) : nat := Nat.max 1 (length row).

Lemma explode_labels (rows : list (list A)) (s : nat) :
  map fst (flat_map (fun ir => explode_row nan (fst ir) (snd ir))
                    (combine (seq s (length rows)) rows))
  = concat (map (fun ir => repeat (fst ir) (size (snd ir)))
                (combine (seq s (length rows)) rows)).
Proof.
  revert s; induction rows as [|row rows IH]; intros s; simpl; auto.
  rewrite map_app, IH, explode_row_placeholder, map_fst_pair.
  now rewrite row_size_placeholder.
Qed.

Lemma group_cut (rows : list (list A)) :
  forall (s : nat) (groups : list (nat * list C)) (values : list C),
    length values = list_sum (map size rows) ->
    (forall l, In l (map fst groups) -> (l < s)%nat) ->
    fold_left (fun acc lv => group_add (fst lv) (snd lv) acc)
              (combine (concat (map (fun ir => repeat (fst ir) (size (snd ir)))
                                    (combine (seq s (length rows)) rows)))
                       values)
              groups
    = groups ++ combine (seq s (length rows)) (cut_by (map size rows) values).
Proof.
  induction rows as [|row rows IH]; intros s groups values Hlen Hlt; simpl.
  - now rewrite app_nil_r.
  - simpl in Hlen.
    rewrite combine_app_cut, fold_left_app, repeat_length.
    assert (Hfirst : length (firstn (size row) values) = size row)
      by (rewrite length_firstn; lia).
    assert (Hpairs : combine (repeat s (size row)) (firstn (size row) values)
                     = map (pair s) (firstn (size row) values)).
    { set (vs := firstn (size row) values) in *. rewrite <- Hfirst.
      apply combine_repeat. }
    rewrite Hpairs.
    assert (Hfresh : ~ In s (map fst groups))
      by (intros Hin; apply Hlt in Hin; lia).
    destruct (firstn (size row) values) as [|v vs] eqn:Hcut.
    { unfold size in Hfirst. cbn [length] in Hfirst. lia. }
    simpl map. simpl fold_left at 2. simpl fst. simpl snd.
    rewrite group_add_fresh by assumption.
    rewrite group_row_tail by assumption. simpl app at 2.
    rewrite IH.
    + now rewrite <- app_assoc.
    + rewrite length_skipn. lia.
    + intros l Hin. rewrite map_app, in_app_iff in Hin. simpl in Hin.
      destruct Hin as [Hin|[<-|[]]]; [apply Hlt in Hin|]; lia.
Qed.

(** X2: [flatten_apply] calls the transform once, on the rows put end to end
    with the marker for each empty row.  An exception of the transform is
    the exception of the call.  Given no row at all, a non-empty answer
    comes back with every value as a row of its own.  Otherwise an answer
    of another length than that list raises [ValueError], and any other
    answer is cut back into as many rows as were given, row by row as
    long as the input row (one cell for an empty row), whatever the
    transform did cell by cell; the rows put end to end are the answer
    as the result column stores it. *)
Theorem flatten_apply_shape (func : list A -> result (list B))
  (rows : list (list A)) :
  let flat := flatten (map (placeholder_row nan) rows) in
  match func flat with
  | Raise e => flatten_apply nan cast func rows = Raise e
  | Ok values =>
      match rows, values with
      | [], _ :: _ =>
          flatten_apply nan cast func rows
          = Ok (map (fun v => [cast values v]) values)
      | _, _ =>
          if (length values =? length flat)%nat then
            exists out,
              flatten_apply nan cast func rows = Ok out /\
              flatten out = as_column cast values /\
              map (@length C) out = map (fun row => Nat.max 1 (length row)) rows
          else
            flatten_apply nan cast func rows
            = Raise (length_mismatch (length values) (length flat))
      end
  end.
Proof.
  cbv zeta.
  set (flat := flatten (map (placeholder_row nan) rows)).
  destruct (func flat) as [values|e] eqn:Hfunc.
  2:{ unfold flatten_apply. rewrite explode_cells. fold flat.
      now rewrite Hfunc. }
  assert (Hflat : length (explode nan rows) = length flat).
  { unfold flat. rewrite <- explode_cells. now rewrite length_map. }
  assert (Hgeneral :
            (length flat =? 0)%nat && negb (length values =? 0)%nat = false ->
            if (length values =? length flat)%nat then
              exists out,
                flatten_apply nan cast func rows = Ok out /\
                flatten out = as_column cast values /\
                map (@length C) out = map (fun row => Nat.max 1 (length row)) rows
            else
              flatten_apply nan cast func rows
              = Raise (length_mismatch (length values) (length flat))).
  { intros Htest. unfold flatten_apply. rewrite explode_cells. fold flat.
    rewrite Hfunc. cbn [bind]. rewrite Hflat, Htest.
    destruct (Nat.eqb_spec (length values) (length flat)) as [Hlen|Hlen];
      [|reflexivity].
    assert (Hsum : length (as_column cast values) = list_sum (map size rows)).
    { unfold as_column. rewrite length_map, Hlen. unfold flat, flatten. clear.
      induction rows as [|row rows IH]; simpl; auto.
      now rewrite length_app, IH, row_size_placeholder. }
    eexists. split; [reflexivity|].
    unfold groupby_level0, explode. rewrite explode_labels.
    rewrite group_cut by (auto; simpl; tauto). simpl app.
    destruct (cut_by_concat (map size rows) (as_column cast values) Hsum)
      as [Hc Hl].
    assert (Hsnd : map snd (combine (seq 0 (length rows))
                                    (cut_by (map size rows) (as_column cast values)))
                   = cut_by (map size rows) (as_column cast values)).
    { assert (Hn : length rows
                   = length (cut_by (map size rows) (as_column cast values)))
        by (rewrite <- (length_map (@length C)), Hl, length_map; reflexivity).
      rewrite Hn. apply snd_combine_seq. }
    rewrite Hsnd. split; [exact Hc | exact Hl]. }
  destruct rows as [|row rows].
  - destruct values as [|v values].
    + apply Hgeneral. reflexivity.
    + apply flatten_apply_grown; [exact Hfunc | discriminate].
  - apply Hgeneral.
    assert (Hpos : (length flat =? 0)%nat = false).
    { apply Nat.eqb_neq. unfold flat, flatten. cbn [map concat].
      rewrite length_app, row_size_placeholder. lia. }
    now rewrite Hpos.
Qed.

End FlattenApplyShape.

Lemma combine_map_fst {I J X : Type} (f : I -> J) (l : list I) (l' : list X) :
  combine (map f l) l' = map (fun iv => (f (fst iv), snd iv)) (combine l l').
Proof.
  revert l'; induction l as [|i l IH]; intros [|x l']; simpl; auto.
  now rewrite IH.
Qed.

(** X3: [explode] raises exactly when its two arguments differ in length.
    Otherwise its two answers line up: the values are the collections put
    end to end, an empty one giving the marker, and each index value, as
    the column of the index values stores it, stands once for every value
    of its collection, once for an empty one. *)
Theorem explode_aligned {I J A : Type} (nan : A) (cast : list I -> I -> J)
  (index_values : list I) (explode_values : list (list A)) :
  match Util.explode nan cast index_values explode_values with
  | inl _ => length index_values <> length explode_values
  | inr (indices, values) =>
      length index_values = length explode_values /\
      length indices = length values /\
      values = flatten (map (placeholder_row nan) explode_values) /\
      indices
      = flatten (map (fun iv => repeat (cast index_values (fst iv))
                                       (Nat.max 1 (length (snd iv))))
                     (combine index_values explode_values))
  end.
Proof.
  unfold Util.explode, as_column.
  destruct (Nat.eqb_spec (length index_values) (length explode_values))
    as [Hlen|Hlen]; [|exact Hlen].
  split; [exact Hlen|]. split; [now rewrite !length_map|].
  rewrite combine_map_fst. generalize (cast index_values). intros f.
  split.
  - unfold flatten. revert explode_values Hlen.
    induction index_values as [|i idx IH]; intros [|row rows] Hlen;
      simpl in *; try discriminate; auto.
    rewrite map_app, map_snd_pair, IH by lia. reflexivity.
  - unfold flatten. clear Hlen. revert explode_values.
    induction index_values as [|i idx IH]; intros [|row rows]; simpl; auto.
    now rewrite map_app, map_fst_pair, row_size_placeholder, IH.
Qed.

(** Index values that are strings come back as they are; integers next
    to [None] come back as floats next to [NaN]. *)
Example explode_run :
  Util.explode CNaN pandas_cast_obj [VStr "q1"; VStr "q2"; VStr "q3"]
    [[CObj (VInt 1); CObj (VInt 2)]; []; [CObj (VInt 3)]]
  = inr ([CObj (VStr "q1"); CObj (VStr "q1"); CObj (VStr "q2"); CObj (VStr "q3")],
         [CObj (VInt 1); CObj (VInt 2); CNaN; CObj (VInt 3)]) /\
  Util.explode CNaN pandas_cast_obj [VInt 1; VNone]
    [[CObj (VStr "a")]; [CObj (VStr "b"); CObj (VStr "c")]]
  = inr ([CFloat 1 0; CNaN; CNaN],
         [CObj (VStr "a"); CObj (VStr "b"); CObj (VStr "c")]) /\
  Util.explode CNaN pandas_cast_obj [VStr "q1"]
    [[CObj (VInt 1); CObj (VInt 2)]; []]
  = inl (AssertionError "Index values and explode values must have same length").
Proof. repeat split. Qed.

(** ** [make_combinations] on any candidates *)

Lemma existsb_negb_forallb {X : Type} (f : X -> bool) (l : list X) :
  existsb (fun x => negb (f x)) l = negb (forallb f l).
Proof.
  induction l as [|x l IH]; simpl; auto.
  rewrite IH. now destruct (f x).
Qed.

Lemma count_product_zero (counts : list nat) :
  In 0%nat counts -> count_product counts = 0%nat.
Proof.
  induction counts as [|c counts IH]; simpl; [contradiction|].
  intros [->|Hin]; auto. rewrite IH by assumption. lia.
Qed.

Section MakeCombinationsGeneral.

Variable list_of_set : list pyval -> list pyval.

Hypothesis list_of_set_nodup :
  forall x, forallb is_hashable x = true -> NoDup (list_of_set x).
Hypothesis list_of_set_in :
  forall x, forallb is_hashable x = true ->
  forall v, In v (list_of_set x) <-> In v x.

Lemma delete_duplicate_length (x : list pyval) :
  length (delete_duplicate list_of_set x)
  = if forallb is_hashable x then length (nodup pyval_eq_dec x) else length x.
Proof.
  unfold delete_duplicate. rewrite existsb_negb_forallb.
  destruct (forallb is_hashable x) eqn:Hh; simpl; auto.
  apply Permutation_length, NoDup_Permutation.
  - now apply list_of_set_nodup.
  - apply NoDup_nodup.
  - intros v. rewrite nodup_In. now apply list_of_set_in.
Qed.

Lemma delete_duplicate_in (x : list pyval) (v : pyval) :
  In v (delete_duplicate list_of_set x) <-> In v x.
Proof.
  unfold delete_duplicate. rewrite existsb_negb_forallb.
  destruct (forallb is_hashable x) eqn:Hh; simpl; [|tauto].
  now apply list_of_set_in.
Qed.

Lemma make_combinations_product (target_dict : dict pyval) :
  NoDup (map fst target_dict) ->
  make_combinations list_of_set target_dict
  = map (combine (map fst target_dict))
        (product (map (fun kv => delete_duplicate list_of_set (as_list (snd kv)))
                      target_dict)).
Proof.
  intros Hnd. unfold make_combinations.
  rewrite (dict_of_nodup (map _ target_dict))
    by (rewrite map_map; simpl; exact Hnd).
  rewrite (dict_of_nodup (map _ (map _ target_dict)))
    by (rewrite !map_map; simpl; exact Hnd).
  rewrite !map_map. simpl.
  apply map_ext_in. intros combo Hin.
  apply dict_of_nodup. rewrite combine_keys; auto.
  apply in_product, Forall2_length in Hin.
  rewrite !length_map in *. auto.
Qed.

(** X8: For any dictionary, [make_combinations] returns as many assignments
    as the product, over the keys, of the number of distinct candidates
    where the candidates of the key are all hashable and of the number of
    candidates as given where one is not (there duplicates stay).  Every
    assignment has the keys of the input in their order and under each key
    one of its candidates.  So the empty dictionary gives the one empty
    assignment, and a key with no candidate gives no assignment at all. *)
Theorem make_combinations_count (target_dict : dict pyval) :
  NoDup (map fst target_dict) ->
  let out := make_combinations list_of_set target_dict in
  length out
  = count_product
      (map (fun kv =>
              if forallb is_hashable (as_list (snd kv))
              then length (nodup pyval_eq_dec (as_list (snd kv)))
              else length (as_list (snd kv)))
           target_dict) /\
  (forall assignment, In assignment out ->
     map fst assignment = map fst target_dict /\
     Forall2 (fun kv binding =>
                fst binding = fst kv /\ In (snd binding) (as_list (snd kv)))
             target_dict assignment) /\
  (target_dict = [] -> out = [[]]) /\
  (forall k, In (k, VList []) target_dict -> out = []).
Proof.
  intros Hnd out. unfold out.
  rewrite make_combinations_product by assumption.
  set (lists := map (fun kv => delete_duplicate list_of_set (as_list (snd kv)))
                    target_dict).
  assert (Hcount : length (map (combine (map fst target_dict)) (product lists))
                   = count_product
                       (map (fun kv =>
                               if forallb is_hashable (as_list (snd kv))
                               then length (nodup pyval_eq_dec (as_list (snd kv)))
                               else length (as_list (snd kv)))
                            target_dict)).
  { rewrite length_map, product_length. unfold lists. rewrite map_map.
    f_equal. apply map_ext. intros kv. apply delete_duplicate_length. }
  split; [exact Hcount|]. split; [|split].
  - intros assignment Hin. apply in_map_iff in Hin.
    destruct Hin as (combo & <- & Hcombo). apply in_product in Hcombo.
    unfold lists in Hcombo. clear -Hcombo list_of_set_in.
    revert combo Hcombo.
    induction target_dict as [|[k c] rest IH]; intros combo Hcombo;
      inversion Hcombo as [|v l combo' ls Hv Hrest]; subst; simpl.
    + split; constructor.
    + destruct (IH combo' Hrest) as [IHk IHf]. split.
      * now rewrite IHk.
      * constructor; auto. simpl. split; auto.
        exact (proj1 (delete_duplicate_in _ _) Hv).
  - intros ->. reflexivity.
  - intros k Hk.
    apply length_zero_iff_nil. eapply eq_trans; [exact Hcount|].
    apply count_product_zero. apply in_map_iff.
    exists (k, VList []). split; auto.
Qed.

End MakeCombinationsGeneral.

Lemma make_combinations_count_witness :
  length (make_combinations (nodup pyval_eq_dec)
            [("a"%string, VList [VList []; VList []; VInt 1]);
             ("b"%string, VList [VInt 1; VInt 1])]) = 3%nat.
Proof.
  destruct (make_combinations_count (nodup pyval_eq_dec)
              (fun x _ => NoDup_nodup pyval_eq_dec x)
              (fun x _ v => nodup_In pyval_eq_dec x v)
              [("a"%string, VList [VList []; VList []; VInt 1]);
               ("b"%string, VList [VInt 1; VInt 1])]) as [Hlen _].
  - repeat constructor; simpl; intuition discriminate.
  - exact Hlen.
Defined.

(** ** [make_batch] and [reconstruct_list] together *)

(** X9: The batches of [make_batch] are put back by [reconstruct_list] from
    the list they were cut from and their own lengths. *)
Theorem reconstruct_list_make_batch {A : Type} (elems : list A) (batch_size : Z)
  (batches : list (list A)) :
  make_batch elems batch_size = Ok batches ->
  reconstruct_list elems (row_lengths batches) = Ok batches /\
  (0 < batch_size -> flatten batches = elems).
Proof.
  intros Hmb.
  destruct (Z_lt_ge_dec 0 batch_size) as [Hpos|Hnon].
  - rewrite make_batch_pos in Hmb by assumption. inversion Hmb as [Hb].
    assert (Hcat : flatten batches = elems).
    { rewrite <- Hb. unfold flatten. rewrite chunk_concat.
      apply firstn_all2. apply ceil_div_bounds. lia. }
    split; [|now rewrite Hb].
    rewrite Hb. unfold reconstruct_list. f_equal.
    rewrite <- Hcat at 1. apply (reconstruct_loop_roundtrip [] batches).
  - split; [|lia].
    destruct (Z.eq_dec batch_size 0) as [->|Hne]; [discriminate|].
    unfold make_batch in Hmb.
    rewrite range_neg in Hmb by (unfold len; lia). simpl in Hmb.
    inversion Hmb. reflexivity.
Qed.

Lemma reconstruct_list_make_batch_witness :
  reconstruct_list [1; 2; 3; 4; 5] (row_lengths [[1; 2]; [3; 4]; [5]])
  = Ok [[1; 2]; [3; 4]; [5]].
Proof.
  apply (reconstruct_list_make_batch [1; 2; 3; 4; 5] 2). reflexivity.
Defined.

(** ** [select_top_k] *)

Lemma slice_prefix {A : Type} (x : list A) (k : Z) :
  0 <= k -> slice x 0 k = firstn (Z.to_nat k) x.
Proof.
  intros Hk. change k with (0 + k) at 1.
  rewrite slice_nonneg by lia. reflexivity.
Qed.

Lemma select_top_k_app {A : Type} (names1 names2 : list string) (top_k : Z) :
  forall df : dict (list (list A)),
    select_top_k df (names1 ++ names2) top_k
    = match select_top_k df names1 top_k with
      | (df1, Ok _) => select_top_k df1 names2 top_k
      | (df1, Raise e) => (df1, Raise e)
      end.
Proof.
  induction names1 as [|c names1 IH]; intros df; simpl; auto.
  destruct (dict_get df c); auto.
Qed.

Lemma select_top_k_ok {A : Type} (column_names : list string) (top_k : Z) :
  0 <= top_k ->
  forall df : dict (list (list A)),
    Forall (fun c => dict_contains df c = true) column_names ->
    exists df',
      select_top_k df column_names top_k = (df', Ok tt) /\
      map fst df' = map fst df /\
      forall c cells, dict_get df c = Some cells ->
        dict_get df' c
        = Some (if in_dec string_dec c column_names
                then map (firstn (Z.to_nat top_k)) cells else cells).
Proof.
  intros Hk. induction column_names as [|name rest IH]; intros df Hall; simpl.
  - exists df. repeat split; auto.
  - inversion Hall as [|? ? Hname Hrest]; subst.
    pose proof Hname as Hkey. apply dict_contains_keys in Hkey.
    apply dict_contains_get in Hname. destruct Hname as [cells0 Hcells0].
    rewrite Hcells0.
    set (df1 := dict_set df name (map (fun x => slice x 0 top_k) cells0)).
    assert (Hkeys1 : map fst df1 = map fst df)
      by now apply dict_set_keys_present.
    destruct (IH df1) as (df' & Hrun & Hkeys & Hget).
    { eapply Forall_impl; [|exact Hrest]. intros c Hc. simpl in Hc.
      apply dict_contains_keys. rewrite Hkeys1. now apply dict_contains_keys. }
    exists df'. split; [exact Hrun|]. split; [congruence|].
    intros c cells Hc.
    destruct (string_dec name c) as [->|Hne].
    + assert (Hc1 : dict_get df1 c
                    = Some (map (firstn (Z.to_nat top_k)) cells)).
      { unfold df1. rewrite dict_get_set_same. f_equal.
        assert (cells0 = cells) by congruence. subst.
        apply map_ext. intros x. now apply slice_prefix. }
      rewrite (Hget _ _ Hc1).
      destruct (in_dec string_dec c rest); auto.
      f_equal. rewrite map_map. apply map_ext. intros x.
      rewrite firstn_firstn. f_equal. lia.
    + assert (Hc1 : dict_get df1 c = Some cells).
      { unfold df1. rewrite dict_get_set_other by congruence. exact Hc. }
      rewrite (Hget _ _ Hc1).
      destruct (in_dec string_dec c rest) as [Hin|Hout];
        destruct (string_dec name c); try contradiction; auto.
Qed.

(** X10: [select_top_k] with a [top_k] that is not negative.  When the frame
    has every named column it returns the frame with the same columns, a
    cell of a named column cut to its first [top_k] elements, shorter
    cells and the other columns as they were, however often a column is
    named.  When a named column is missing it raises [KeyError] for the
    first such, the frame being left with the columns named before it
    already cut. *)
Theorem select_top_k_spec {A : Type} (df : dict (list (list A)))
  (column_names : list string) (top_k : Z) :
  0 <= top_k ->
  (Forall (fun c => dict_contains df c = true) column_names ->
   exists df',
     select_top_k df column_names top_k = (df', Ok tt) /\
     map fst df' = map fst df /\
     forall c cells, dict_get df c = Some cells ->
       dict_get df' c
       = Some (if in_dec string_dec c column_names
               then map (firstn (Z.to_nat top_k)) cells else cells)) /\
  (forall found missing rest,
     column_names = found ++ missing :: rest ->
     Forall (fun c => dict_contains df c = true) found ->
     dict_contains df missing = false ->
     select_top_k df column_names top_k
     = (fst (select_top_k df found top_k), Raise (KeyError missing))).
Proof.
  intros Hk. split; [now apply select_top_k_ok|].
  intros found missing rest -> Hfound Hmissing.
  rewrite select_top_k_app.
  destruct (select_top_k_ok found top_k Hk df Hfound) as (df1 & -> & Hkeys & _).
  simpl.
  destruct (dict_get df1 missing) eqn:Hg; auto.
  assert (Hin : dict_contains df1 missing = true)
    by (apply dict_contains_get; eauto).
  apply dict_contains_keys in Hin. rewrite Hkeys in Hin.
  apply dict_contains_keys in Hin. congruence.
Qed.

Lemma select_top_k_spec_witness :
  select_top_k [("ids"%string, [[1; 2; 3]; [4]]); ("scores"%string, [[7; 8; 9]; [6]])]
               ["ids"%string; "contents"%string; "scores"%string] 2
  = (fst (select_top_k
            [("ids"%string, [[1; 2; 3]; [4]]); ("scores"%string, [[7; 8; 9]; [6]])]
            ["ids"%string] 2),
     Raise (KeyError "contents")).
Proof.
  apply (proj2 (select_top_k_spec
                  [("ids"%string, [[1; 2; 3]; [4]]);
                   ("scores"%string, [[7; 8; 9]; [6]])]
                  ["ids"%string; "contents"%string; "scores"%string] 2
                  ltac:(lia))
               ["ids"%string] "contents"%string ["scores"%string]).
  - reflexivity.
  - repeat constructor.
  - reflexivity.
Defined.

Example select_top_k_run :
  select_top_k [("ids"%string, [[1; 2; 3]; [4]]); ("scores"%string, [[7; 8; 9]; [6]])]
               ["ids"%string; "contents"%string; "scores"%string] 2
  = ([("ids"%string, [[1; 2]; [4]]); ("scores"%string, [[7; 8; 9]; [6]])],
     Raise (KeyError "contents")).
Proof. reflexivity. Qed.

(** ** [process_batch] and [make_batch] together *)

(** X11: [process_batch] hands to [gather], one after the other, exactly the
    batches that [make_batch] cuts: for a positive batch size each holds
    at least one task and at most [batch_size], which bounds the tasks
    running at one time; for a negative batch size no task is ever
    started and the empty list is returned; for zero the [ValueError] of
    [range] is raised before any task is started. *)
Theorem process_batch_runs_make_batch {R : Type} (tasks : list (Task R))
  (batch_size : Z) :
  match make_batch tasks batch_size with
  | Ok batches =>
      process_batch tasks batch_size = run_batches batches [] [] /\
      (0 < batch_size ->
       Forall (fun batch => 0 < len batch <= batch_size) batches) /\
      (batch_size < 0 -> process_batch tasks batch_size = ([], Ok []))
  | Raise e =>
      batch_size = 0 /\ process_batch tasks batch_size = ([], Raise e)
  end.
Proof.
  unfold make_batch, process_batch.
  destruct (range 0 (len tasks) batch_size) as [idx|e] eqn:Hrange; simpl.
  - split; [apply process_loop_batches|]. split.
    + intros Hk. rewrite range_pos in Hrange by (unfold len; lia).
      inversion Hrange as [Hidx]. rewrite map_map. apply Forall_forall.
      intros batch Hin. apply in_map_iff in Hin. destruct Hin as (i & <- & Hi).
      apply in_seq in Hi. unfold len in Hi. rewrite Nat2Z.id in Hi.
      rewrite slice_nonneg by lia.
      destruct (ceil_div_bounds (length tasks) (Z.to_nat batch_size) ltac:(lia))
        as (_ & Hlo & Hz).
      assert (Hn : (0 < length tasks)%nat).
      { destruct (length tasks); [rewrite Hz in Hi by auto|]; lia. }
      destruct (Hlo Hn) as [_ Hlast].
      assert (Hik : (i * Z.to_nat batch_size
                     <= (ceil_div (length tasks) (Z.to_nat batch_size) - 1)
                        * Z.to_nat batch_size)%nat)
        by (apply Nat.mul_le_mono_r; lia).
      unfold len. rewrite length_firstn, length_skipn.
      rewrite Z2Nat.inj_mul, Nat2Z.id by lia. lia.
    + intros Hk. rewrite range_neg in Hrange by (unfold len; lia).
      inversion Hrange. reflexivity.
  - split; auto. unfold range in Hrange.
    destruct (Z.eqb_spec batch_size 0); [assumption|discriminate].
Qed.

(** ** [convert_env_in_dict] *)

Section ConvertEnvProperties.

Variable environ : string -> option string.

Lemma prefix_other_head (c : ascii) (p rest : string) :
  Ascii.eqb c "$" = false -> String.prefix (String "$" p) (String c rest) = false.
Proof.
  intros Hc. cbn [String.prefix]. destruct (ascii_dec "$" c) as [<-|]; auto.
  rewrite Ascii.eqb_refl in Hc. discriminate.
Qed.

Lemma findall_dollar_free (s : string) :
  has_char "$" s = false -> env_pattern_findall 0 s = [].
Proof.
  induction s as [|c rest IH]; auto.
  intros H. cbn [has_char] in H. apply orb_false_iff in H.
  destruct H as [Hc Hrest].
  cbn [env_pattern_findall]. rewrite prefix_other_head by assumption. auto.
Qed.

Lemma findall_skip (a s : string) :
  env_pattern_findall (String.length a) (a ++ s) = env_pattern_findall 0 s.
Proof.
  induction a as [|c a IH]; simpl; auto.
Qed.

Lemma findall_after_dollar_free (pre s : string) :
  has_char "$" pre = false ->
  env_pattern_findall 0 (pre ++ s) = env_pattern_findall 0 s.
Proof.
  induction pre as [|c pre IH]; auto.
  intros H. cbn [has_char] in H. apply orb_false_iff in H.
  destruct H as [Hc Hrest].
  cbn [append env_pattern_findall]. rewrite prefix_other_head by assumption.
  auto.
Qed.

Lemma read_name_closed (name post : string) :
  has_char "}" name = false -> has_char newline name = false ->
  read_name (name ++ String "}" post) = Some name.
Proof.
  induction name as [|c name IH]; simpl; auto.
  intros H1 H2. apply orb_false_iff in H1, H2.
  destruct H1 as [-> H1], H2 as [-> H2]. now rewrite IH.
Qed.

Lemma replace_from_skip (old new a s : string) :
  replace_from old new (String.length a) (a ++ s) = replace_from old new 0 s.
Proof.
  induction a as [|c a IH]; simpl; auto.
Qed.

Lemma replace_from_dollar_free (p new s : string) :
  has_char "$" s = false ->
  replace_from (String "$" p) new 0 s = s.
Proof.
  induction s as [|c rest IH]; auto.
  intros H. simpl in H. apply orb_false_iff in H. destruct H as [Hc Hrest].
  cbn [replace_from]. rewrite prefix_other_head by assumption.
  now rewrite IH.
Qed.

Lemma replace_from_after_dollar_free (p new pre s : string) :
  has_char "$" pre = false ->
  replace_from (String "$" p) new 0 (pre ++ s)
  = (pre ++ replace_from (String "$" p) new 0 s)%string.
Proof.
  induction pre as [|c pre IH]; auto.
  intros H. simpl in H. apply orb_false_iff in H. destruct H as [Hc Hrest].
  cbn [append replace_from]. rewrite prefix_other_head by assumption.
  now rewrite IH.
Qed.

Lemma prefix_append (p s : string) : String.prefix p (p ++ s) = true.
Proof.
  induction p as [|c p IH]; cbn [append String.prefix].
  - now destruct s.
  - destruct (ascii_dec c c); [exact IH|contradiction].
Qed.

Lemma append_assoc (a b c : string) : ((a ++ b) ++ c = a ++ (b ++ c))%string.
Proof. induction a as [|x a IH]; simpl; congruence. Qed.

Lemma convert_env_dollar_free (s : string) :
  has_char "$" s = false -> convert_env environ s = s.
Proof.
  intros H. unfold convert_env. now rewrite findall_dollar_free.
Qed.

Lemma findall_unfold (c : ascii) (rest : string) :
  env_pattern_findall 0 (String c rest)
  = if String.prefix "${" (String c rest) then
      match read_name (string_tail rest) with
      | Some name => name :: env_pattern_findall (String.length name + 2) rest
      | None => env_pattern_findall 0 rest
      end
    else env_pattern_findall 0 rest.
Proof. reflexivity. Qed.

Lemma replace_from_unfold (old new : string) (c : ascii) (rest : string) :
  replace_from old new 0 (String c rest)
  = if String.prefix old (String c rest) then
      (new ++ replace_from old new (String.length old - 1) rest)%string
    else String c (replace_from old new 0 rest).
Proof. reflexivity. Qed.

Lemma length_append (a b : string) :
  String.length (a ++ b) = (String.length a + String.length b)%nat.
Proof. induction a as [|c a IH]; simpl; auto. Qed.

(** X12: One placeholder in a text that has no other dollar is replaced by the
    value of its name in the environment, or by nothing when the name is
    not set there; the name may hold anything but a closing brace and a
    line break, and the value is put in as it is, whatever it holds. *)
Theorem convert_env_placeholder (pre name post : string) :
  has_char "$" pre = false ->
  has_char "$" post = false ->
  has_char "}" name = false ->
  has_char newline name = false ->
  convert_env environ (pre ++ "${" ++ name ++ "}" ++ post)
  = (pre ++ environ_get environ name ++ post)%string.
Proof.
  intros Hpre Hpost Hn2 Hn3. unfold convert_env.
  set (pat := ("${" ++ name ++ "}")%string).
  assert (Htext : (pre ++ "${" ++ name ++ "}" ++ post)%string
                  = (pre ++ (pat ++ post))%string).
  { unfold pat. now rewrite !append_assoc. }
  rewrite Htext.
  assert (Hpat : pat = String "$" (String "{" (name ++ "}"))) by reflexivity.
  assert (Hbody : (pat ++ post)%string
                  = String "$" (String "{" (name ++ String "}" post))).
  { rewrite Hpat. cbn [append]. now rewrite append_assoc. }
  assert (Hprefix : String.prefix "${" (pat ++ post) = true)
    by (unfold pat; rewrite append_assoc; apply prefix_append).
  assert (Hfind : env_pattern_findall 0 (pre ++ (pat ++ post)) = [name]).
  { rewrite findall_after_dollar_free by assumption.
    rewrite Hbody at 1. rewrite findall_unfold, <- Hbody, Hprefix.
    cbn [string_tail]. rewrite read_name_closed by assumption. f_equal.
    replace (String "{" (name ++ String "}" post))
      with (String "{" (name ++ "}") ++ post)%string
      by (cbn [append]; now rewrite append_assoc).
    replace (String.length name + 2)%nat
      with (String.length (String "{" (name ++ "}")))
      by (cbn [String.length]; rewrite length_append; simpl; lia).
    rewrite findall_skip. now apply findall_dollar_free. }
  rewrite Hfind. cbn [fold_left]. unfold str_replace. fold pat.
  rewrite Hpat at 1. rewrite replace_from_after_dollar_free by assumption.
  rewrite <- Hpat. f_equal.
  rewrite Hbody at 1. rewrite replace_from_unfold, <- Hbody, prefix_append.
  f_equal.
  replace (String "{" (name ++ String "}" post))
    with (String "{" (name ++ "}") ++ post)%string
    by (cbn [append]; now rewrite append_assoc).
  replace (String.length pat - 1)%nat
    with (String.length (String "{" (name ++ "}")))
    by (rewrite Hpat; cbn [String.length]; lia).
  rewrite replace_from_skip. rewrite Hpat. now apply replace_from_dollar_free.
Qed.

Lemma convert_env_in_node_dollar_free (v : config) :
  (dollar_free v = true -> convert_env_in_node environ v = v) /\
  match v with
  | CList items =>
      Forall (fun item =>
                dollar_free item = true -> convert_env_in_node environ item = item)
             items
  | _ => True
  end.
Proof.
  induction v as [s|d IH|items IH|z] using config_nested_ind; auto.
  - split; auto.
    intros Hfree. simpl in Hfree. cbn [convert_env_in_node]. f_equal.
    induction IH as [|[key value] rest Hvalue _ IHrest]; simpl; auto.
    simpl in Hfree, Hvalue. apply andb_true_iff in Hfree.
    destruct Hfree as [Hv Hrest]. rewrite IHrest by assumption. f_equal. f_equal.
    destruct value as [s|d'|items|z]; auto.
    + simpl in Hv. rewrite convert_env_dollar_free; auto.
      now destruct (has_char "$" s).
    + now apply Hvalue.
    + f_equal. destruct Hvalue as [_ Hitems]. simpl in Hv.
      induction Hitems as [|item items Hitem _ IHitems]; simpl; auto.
      simpl in Hv. apply andb_true_iff in Hv. destruct Hv as [Hi Hrest'].
      rewrite IHitems by assumption. f_equal.
      destruct item as [s|d''|items'|z]; auto.
      simpl in Hi. rewrite convert_env_dollar_free; auto.
      now destruct (has_char "$" s).
  - split; auto.
    eapply Forall_impl; [|exact IH]. intros item [Hitem _]. exact Hitem.
Qed.

(** X13: A configuration none of whose strings holds a dollar is left as it
    is by [convert_env_in_dict], whatever the environment. *)
Theorem convert_env_in_dict_dollar_free (d : list (string * config)) :
  dollar_free (CDict d) = true -> convert_env_in_dict environ d = d.
Proof.
  intros Hfree. unfold convert_env_in_dict.
  now rewrite (proj1 (convert_env_in_node_dollar_free (CDict d)) Hfree).
Qed.

End ConvertEnvProperties.

Lemma convert_env_placeholder_witness :
  convert_env (fun name => if String.eqb name "FOO" then Some "bar"%string else None)
              ("prefix-" ++ "${" ++ "FOO" ++ "}" ++ "-suffix")
  = ("prefix-" ++ "bar" ++ "-suffix")%string.
Proof.
  apply (convert_env_placeholder
           (fun name => if String.eqb name "FOO" then Some "bar"%string else None)
           "prefix-" "FOO" "-suffix"); reflexivity.
Defined.

Lemma convert_env_in_dict_dollar_free_witness :
  convert_env_in_dict (fun _ => Some "x"%string)
    [("a"%string, CStr "plain"); ("b"%string, CList [CStr "text"; CScalar 3])]
  = [("a"%string, CStr "plain"); ("b"%string, CList [CStr "text"; CScalar 3])].
Proof.
  apply (convert_env_in_dict_dollar_free (fun _ => Some "x"%string)).
  reflexivity.
Defined.

(** What the traversal reaches: the strings under a key, in a list under
    a key and in the dictionaries there; not the keys, and not a string in
    a list inside a list. *)
Example convert_env_in_dict_run :
  convert_env_in_dict
    (fun name => if String.eqb name "FOO" then Some "bar"%string else None)
    [("a"%string, CStr "${FOO}");
     ("b"%string, CList [CStr "${FOO}"; CList [CStr "${FOO}"];
                         CDict [("c"%string, CStr "x${NOPE}")]]);
     ("${FOO}"%string, CScalar 1)]
  = [("a"%string, CStr "bar");
     ("b"%string, CList [CStr "bar"; CList [CStr "${FOO}"];
                         CDict [("c"%string, CStr "x")]]);
     ("${FOO}"%string, CScalar 1)].
Proof. reflexivity. Qed.

(** ** [openai_truncate_by_token] *)



(** ** [embedding_query_content] and a model that answers short or long *)

(** X15: [embedding_query_content] never checks how many vectors the model
    answers with.  Whenever the inputs are prepared and the two embedding
    calls return, it returns: the query vectors as answered, and one row
    of content vectors for each row of contents, the rows put end to end
    being the first vectors of the answer, as many as there are contents
    at most; with an answer that is too short the last rows are cut short
    or empty, with one too long the vectors beyond are dropped. *)
Theorem embedding_query_content_unchecked {Vec : Type}
  (encoding_for_model : string -> result Tokenizer)
  (queries : list string) (contents_list : list (list string))
  (m : EmbeddingModel Vec) (batch : Z)
  (queries' contents' : list string) (query_vectors content_vectors : list Vec) :
  truncate_inputs encoding_for_model (Some m) queries (flatten contents_list) 8191
  = Ok (queries', contents') ->
  embed m batch queries' = Ok query_vectors ->
  embed m batch contents' = Ok content_vectors ->
  exists content_rows,
    embedding_query_content encoding_for_model queries contents_list (Some m) batch
    = Ok (query_vectors, content_rows) /\
    length content_rows = length contents_list /\
    flatten content_rows
    = firstn (length (flatten contents_list)) content_vectors /\
    Forall2 (fun row contents => (length row <= length contents)%nat)
            content_rows contents_list.
Proof.
  intros Htr Hq Hc. unfold embedding_query_content.
  rewrite Htr. cbn [bind fst snd].
  unfold get_text_embedding_batch, set_embed_batch_size.
  cbn [embed embed_batch_size]. rewrite Hq. cbn [bind]. rewrite Hc. cbn [bind].
  unfold reconstruct_list. cbn [bind]. eexists. split; [reflexivity|].
  assert (Hnonneg : Forall (fun n => 0 <= n) (row_lengths contents_list)).
  { unfold row_lengths. apply Forall_forall. intros n Hn.
    apply in_map_iff in Hn. destruct Hn as (r & <- & _). unfold len. lia. }
  destruct (reconstruct_loop_concat content_vectors (row_lengths contents_list) 0
              ltac:(lia) Hnonneg) as [Hcat Hrows].
  split; [|split].
  - rewrite reconstruct_loop_length. apply length_map.
  - unfold flatten. rewrite Hcat. simpl skipn. f_equal.
    unfold row_lengths. clear. induction contents_list as [|r rs IH]; simpl; auto.
    rewrite length_app. rewrite <- IH. unfold len.
    assert (0 <= sum (map (fun l : list string => Z.of_nat (length l)) rs)).
    { clear. induction rs; simpl; lia. }
    lia.
  - clear Hcat. unfold row_lengths in *.
    generalize dependent (reconstruct_loop content_vectors
                            (map len contents_list) [] 0).
    clear. induction contents_list as [|r rs IH]; intros out Hrows;
      inversion Hrows; subst; constructor.
    + unfold len in *. lia.
    + apply IH; auto.
Qed.

Lemma embedding_query_content_unchecked_witness :
  exists content_rows,
    embedding_query_content no_tokenizer ["q"%string]
      [["a"%string; "b"%string]; ["c"%string]] (Some short_model) 8
    = Ok ([7%nat], content_rows) /\
    length content_rows = 2%nat.
Proof.
  destruct (embedding_query_content_unchecked no_tokenizer ["q"%string]
              [["a"%string; "b"%string]; ["c"%string]] short_model 8
              ["q"%string] ["a"%string; "b"%string; "c"%string] [7%nat] [7%nat])
    as (content_rows & H1 & H2 & _); try reflexivity.
  exists content_rows. split; [exact H1 | exact H2].
Defined.

Example embedding_query_content_short_answer :
  embedding_query_content no_tokenizer ["q"%string]
    [["a"%string; "b"%string]; ["c"%string]] (Some short_model) 8
  = Ok ([7%nat], [[7%nat]; []]).
Proof. reflexivity. Qed.
